(** * Network tracer and socket enricher of inspektor-gadget

    A shallow embedding of
    - [pkg/gadgets/internal/socketenricher/tracer.go] (module [socketenricher])
    - [pkg/gadgets/internal/networktracer/tracer.go]  (module [networktracer])
    and the properties of the attachment registry, of the construction
    rollback, of the ingestion loop and of the enricher's shutdown.

    Go code that talks to the kernel is written in a small state monad over a
    [World]: the heap of collection specs, the channels, and the chronological
    trace of kernel-visible events.  A nil dereference or the close of a closed
    channel is a [Panic].  What the kernel, or a library outside these two
    files, answers to a call is an input: each operation takes an environment
    record with one field per external call, a Go [(value, error)] result
    being a pair whose second component is [None] for a nil error.  An
    acquisition is recorded when the handle that comes back is not nil (not -1
    for a descriptor), a release when the code calls the handle's [Close].

    The order in which [range] enumerates a Go map is not specified: the
    functions that loop over [t.attachments] take that order as an argument,
    and the theorems hold for every order.

    The periodic sweep [cleanupDeletedSockets] runs against the successive
    wake-ups of its [select], given as a list; the period of its ticker is not
    modelled.

    Not modelled: [SetEventHandler] and the [AttachContainer] and
    [DetachContainer] wrappers. *)

From stdpp Require Import gmap strings list fin_maps fin_sets pretty infinite.

Abbreviation uint32 := N (only parsing).
Abbreviation uint64 := N (only parsing).

(** ** Go errors *)

(** A Go [error] value: the sentinel [perf.ErrClosed], a leaf error with its
    text, or [fmt.Errorf(pre + "%w", inner)]. *)
Inductive error : Type :=
| ErrClosed
| ErrNew (msg : string)
| ErrWrap (pre : string) (inner : error).

(** [err.Error()]. *)
Fixpoint Error (e : error) : string :=
  match e with
  | ErrClosed => "file already closed"
  | ErrNew msg => msg
  | ErrWrap pre inner => pre +:+ Error inner
  end.

(** [errors.Is(err, perf.ErrClosed)]: follows the chain of wrapped errors. *)
Fixpoint errors_Is_ErrClosed (e : error) : bool :=
  match e with
  | ErrClosed => true
  | ErrNew _ => false
  | ErrWrap _ inner => errors_Is_ErrClosed inner
  end.

(** [%d] of fmt. *)
Definition fmt_d (n : N) : string := pretty n.

(** [%q] of fmt, that is [strconv.Quote]: the text between double quotes,
    with a backslash before a double quote and before a backslash, the
    escapes [\a \b \f \n \r \t \v], and [\x] with two hexadecimal digits
    for the other bytes below 32 and for 127.  Bytes from 128 on are kept:
    that is what [strconv.Quote] does for valid UTF-8 of printable runes. *)
Definition hex_digit (n : nat) : Ascii.ascii :=
  Ascii.ascii_of_nat (if (n <? 10)%nat then 48 + n else 87 + n).

Definition quote_byte (c : Ascii.ascii) : string :=
  let n := Ascii.nat_of_ascii c in
  let esc (x : nat) := String (Ascii.ascii_of_nat 92) (String (Ascii.ascii_of_nat x) EmptyString) in
  if (n =? 34)%nat then esc 34
  else if (n =? 92)%nat then esc 92
  else if (n =? 7)%nat then esc 97
  else if (n =? 8)%nat then esc 98
  else if (n =? 12)%nat then esc 102
  else if (n =? 10)%nat then esc 110
  else if (n =? 13)%nat then esc 114
  else if (n =? 9)%nat then esc 116
  else if (n =? 11)%nat then esc 118
  else if ((n <? 32) || (n =? 127))%nat then
    esc 120 +:+ String (hex_digit (n / 16)) (String (hex_digit (n mod 16)) EmptyString)
  else String c EmptyString.

Fixpoint quote_bytes (s : string) : string :=
  match s with
  | EmptyString => EmptyString
  | String c s' => quote_byte c +:+ quote_bytes s'
  end.

Definition fmt_q (s : string) : string :=
  String (Ascii.ascii_of_nat 34) (quote_bytes s +:+ String (Ascii.ascii_of_nat 34) EmptyString).

(** ** Handles *)

(** Pointers and descriptors are told apart by a number; [Program] is the
    program's [FD()], [Callback] the identity of an event callback. *)
Abbreviation BpfMap := N (only parsing).
Abbreviation Program := Z (only parsing).
Abbreviation Reader := N (only parsing).
Abbreviation Link := N (only parsing).
Abbreviation File := N (only parsing).
Abbreviation chan := N (only parsing).
Abbreviation Callback := N (only parsing).
Abbreviation specptr := N (only parsing).

Record MapSpec := { ms_Name : string }.
Record ProgramSpec := { ps_Instructions : list N }.

(** [ebpf.CollectionSpec]: [cs_Maps] lists [Maps] in the order [range]
    enumerates it; [cs_Consts] are the constants [RewriteConstants] patches. *)
Record CollectionSpec := {
  cs_Maps : list (string * MapSpec);
  cs_Programs : gmap string ProgramSpec;
  cs_Consts : gmap string N;
}.

(** [ebpf.Collection]. *)
Record Collection := {
  coll_id : N;
  coll_Programs : gmap string Program;
  coll_Maps : gmap string BpfMap;
}.

(** bpf2go's [socketenricherObjects]: the zero value holds nothing. *)
Record socketenricherObjects := {
  Sockets : option BpfMap;
  objs_Programs : gmap string Program;
}.

(** ** The world *)

Inductive kevent : Type :=
(* networktracer *)
| EvNewCollection (c : Collection)
| EvCollectionClose (c : Collection)
| EvNewReader (rd : Reader)
| EvReaderClose (rd : Reader)
| EvOpenRawSock (pid : uint32) (fd : Z)
| EvUnixClose (fd : Z)
| EvSetsockopt (fd : Z) (opt : Z) (progfd : Z)
| EvGoListen (netns : uint64) (rd : option Reader) (cb : Callback)
| EvLog (msg : string)
(* socketenricher *)
| EvLoadAndAssign (o : socketenricherObjects)
| EvObjsClose (o : socketenricherObjects)
| EvLinkAttach (l : Link)
| EvLinkClose (l : Link)
| EvFileOpen (f : File)
| EvFileClose (f : File)
| EvChanClose (c : chan)
| EvGoCleanup (cleanupIter : Link) (done : chan).

Record World := {
  w_specs : gmap N CollectionSpec;   (* heap of collection specs *)
  w_chans : gmap N bool;             (* channels made so far; true = closed *)
  w_trace : list kevent;             (* kernel-visible events, oldest first *)
}.

Definition set_specs (f : gmap N CollectionSpec → gmap N CollectionSpec) (w : World) : World :=
  {| w_specs := f (w_specs w); w_chans := w_chans w; w_trace := w_trace w |}.
Definition set_chans (f : gmap N bool → gmap N bool) (w : World) : World :=
  {| w_specs := w_specs w; w_chans := f (w_chans w); w_trace := w_trace w |}.
Definition set_trace (f : list kevent → list kevent) (w : World) : World :=
  {| w_specs := w_specs w; w_chans := w_chans w; w_trace := f (w_trace w) |}.

(** ** The monad: state passing, or a Go panic *)

Inductive outcome (A : Type) : Type :=
| Ret (a : A) (w : World)
| Panic (msg : string).
Arguments Ret {A} a w.
Arguments Panic {A} msg.

Definition M (A : Type) : Type := World → outcome A.

#[global] Instance M_ret : MRet M := λ A a w, Ret a w.
#[global] Instance M_bind : MBind M := λ A B k m w,
  match m w with
  | Ret a w' => k a w'
  | Panic msg => Panic msg
  end.

Definition panic {A} (msg : string) : M A := λ _, Panic msg.

Definition emit (ev : kevent) : M unit := λ w, Ret tt (set_trace (λ tr, tr ++ [ev]) w).

(** [make(chan bool)]. *)
Definition make_chan : M chan := λ w,
  let c := fresh (dom (w_chans w)) in
  Ret c (set_chans <[c:=false]> w).

(** [close(c)]: closing a closed channel panics. *)
Definition close_chan (c : chan) : M unit := λ w,
  match w_chans w !! c with
  | Some false => Ret tt (set_trace (λ tr, tr ++ [EvChanClose c]) (set_chans <[c:=true]> w))
  | _ => Panic "close of closed channel"
  end.

(** Dereference of a [*ebpf.CollectionSpec]. *)
Definition spec_load (l : specptr) : M CollectionSpec := λ w,
  match w_specs w !! l with
  | Some cs => Ret cs w
  | None => Panic "invalid memory address or nil pointer dereference"
  end.

Definition spec_store (l : specptr) (cs : CollectionSpec) : M unit := λ w,
  Ret tt (set_specs <[l:=cs]> w).

Definition spec_alloc (cs : CollectionSpec) : M specptr := λ w,
  let l := fresh (dom (w_specs w)) in
  Ret l (set_specs <[l:=cs]> w).

(** [spec.Copy()]: a deep copy in fresh storage. *)
Definition spec_Copy (l : specptr) : M specptr :=
  cs ← spec_load l;
  spec_alloc cs.

Definition when {A} (o : option A) (f : A → M unit) : M unit :=
  match o with
  | Some a => f a
  | None => mret tt
  end.

(** * socketenricher *)

Module socketenricher.

Record SocketEnricher := {
  objs : socketenricherObjects;
  links : list Link;
  closeOnce : bool;      (* sync.Once: true once Do has run its function *)
  done : option chan;    (* nil until start makes it *)
}.

Definition set_objs (o : socketenricherObjects) (se : SocketEnricher) : SocketEnricher :=
  {| objs := o; links := links se; closeOnce := closeOnce se; done := done se |}.
Definition set_links (ls : list Link) (se : SocketEnricher) : SocketEnricher :=
  {| objs := objs se; links := ls; closeOnce := closeOnce se; done := done se |}.
Definition set_closeOnce (b : bool) (se : SocketEnricher) : SocketEnricher :=
  {| objs := objs se; links := links se; closeOnce := b; done := done se |}.
Definition set_done (c : option chan) (se : SocketEnricher) : SocketEnricher :=
  {| objs := objs se; links := links se; closeOnce := closeOnce se; done := c |}.

Definition SocketsMap (se : SocketEnricher) : option BpfMap := Sockets (objs se).

(** What the kernel and the loader answer during [start]. *)
Record StartEnv := {
  r_loadSocketenricher : option error;
  r_LoadAndAssign : socketenricherObjects * option error;
  r_Kprobe : string → option Program → Link * option error;
  r_Kretprobe : string → option Program → Link * option error;
  (* link.AttachIter(link.IterOptions{Program: prog, Map: m}) *)
  r_AttachIter : option Program → option BpfMap → Link * option error;
  r_IterOpen : Link → File * option error;
  r_ReadAll : File → option error;
}.

Inductive probe_kind := Kprobe | Kretprobe.

(** The twelve probes of [start], in program order: kind, kernel symbol,
    program of [se.objs], and the text put before the error. *)
Definition probes : list (probe_kind * string * string * string) :=
  [ (Kprobe, "inet_bind", "IgBindIpv4E", "attaching ipv4 kprobe: ");
    (Kretprobe, "inet_bind", "IgBindIpv4X", "attaching ipv4 kretprobe: ");
    (Kprobe, "inet6_bind", "IgBindIpv6E", "attaching ipv6 kprobe: ");
    (Kretprobe, "inet6_bind", "IgBindIpv6X", "attaching ipv6 kretprobe: ");
    (Kprobe, "tcp_v4_connect", "IgTcpcV4CoE", "attaching connect ipv4 kprobe: ");
    (Kretprobe, "tcp_v4_connect", "IgTcpcV4CoX", "attaching connect ipv4 kretprobe: ");
    (Kprobe, "tcp_v6_connect", "IgTcpcV6CoE", "attaching ipv6 connect kprobe: ");
    (Kretprobe, "tcp_v6_connect", "IgTcpcV6CoX", "attaching ipv6 connect kretprobe: ");
    (Kprobe, "udp_sendmsg", "IgUdpSendmsg", "attaching udp_sendmsg ipv4 kprobe: ");
    (Kprobe, "udpv6_sendmsg", "IgUdp6Sendmsg", "attaching udpv6_sendmsg ipv6 kprobe: ");
    (Kprobe, "inet_release", "IgFreeIpv4E", "attaching ipv4 release kprobe: ");
    (Kprobe, "inet6_release", "IgFreeIpv6E", "attaching ipv6 release kprobe: ") ].

Definition attach_probe (e : StartEnv) (o : socketenricherObjects)
    (p : probe_kind * string * string * string) : Link * option error :=
  let '(k, sym, prog, _) := p in
  match k with
  | Kprobe => r_Kprobe e sym (objs_Programs o !! prog)
  | Kretprobe => r_Kretprobe e sym (objs_Programs o !! prog)
  end.

(** The run of [l, err = link.K(ret)probe(...); if err != nil { return ... };
    se.links = append(se.links, l)] blocks. *)
Fixpoint attach_probes (e : StartEnv) (ps : list (probe_kind * string * string * string))
    (se : SocketEnricher) : M (SocketEnricher * option error) :=
  match ps with
  | [] => mret (se, None)
  | p :: ps' =>
    let '(l, err) := attach_probe e (objs se) p in
    match err with
    | Some err => mret (se, Some (ErrWrap p.2 err))
    | None =>
      emit (EvLinkAttach l);;
      attach_probes e ps' (set_links (links se ++ [l]) se)
    end
  end.

(** The tail of [start], after the seeding iterator has been read. *)
Definition start_cleanup (e : StartEnv) (se : SocketEnricher) : M (SocketEnricher * option error) :=
  let '(cleanupIter, err) :=
    r_AttachIter e (objs_Programs (objs se) !! "IgSkCleanup") (Sockets (objs se)) in
  match err with
  | Some err => mret (se, Some (ErrWrap "attach BPF iterator for cleanups: " err))
  | None =>
    emit (EvLinkAttach cleanupIter);;
    let se := set_links (links se ++ [cleanupIter]) se in
    c ← make_chan;
    let se := set_done (Some c) se in
    emit (EvGoCleanup cleanupIter c);;
    mret (se, None)
  end.

(** [start]: each [defer x.Close()] runs when the function returns, last
    deferred first, whatever is returned.  [kallsyms.SpecUpdateAddresses]
    patches the spec that [LoadAndAssign] then loads; it returns nothing that
    [start] looks at, and what was loaded is the answer [r_LoadAndAssign]. *)
Definition start (e : StartEnv) (se : SocketEnricher) : M (SocketEnricher * option error) :=
  match r_loadSocketenricher e with
  | Some err => mret (se, Some (ErrWrap "loading asset: " err))
  | None =>
    let '(o, err) := r_LoadAndAssign e in
    let se := set_objs o se in
    match err with
    | Some err => mret (se, Some (ErrWrap "loading ebpf program: " err))
    | None =>
      emit (EvLoadAndAssign o);;
      '(se, err) ← attach_probes e probes se;
      match err with
      | Some err => mret (se, Some err)
      | None =>
        let '(socketsIter, err) :=
          r_AttachIter e (objs_Programs (objs se) !! "IgSocketsIt") None in
        match err with
        | Some err => mret (se, Some (ErrWrap "attach BPF iterator: " err))
        | None =>
          emit (EvLinkAttach socketsIter);;
          r ← (let '(file, err) := r_IterOpen e socketsIter in
               match err with
               | Some err => mret (se, Some (ErrWrap "open BPF iterator: " err))
               | None =>
                 emit (EvFileOpen file);;
                 r ← match r_ReadAll e file with
                     | Some err => mret (se, Some (ErrWrap "read BPF iterator: " err))
                     | None => start_cleanup e se
                     end;
                 emit (EvFileClose file);;
                 mret r
               end);
          emit (EvLinkClose socketsIter);;
          mret r
        end
      end
    end
  end.

(** [se.closeOnce.Do(f)]. *)
Definition Once_Do (se : SocketEnricher) (f : M unit) : M SocketEnricher :=
  if closeOnce se then mret se else f;; mret (set_closeOnce true se).

(** [for _, l := range se.links { gadgets.CloseLink(l) }]. *)
Fixpoint CloseLinks (ls : list Link) : M unit :=
  match ls with
  | [] => mret tt
  | l :: ls' => emit (EvLinkClose l);; CloseLinks ls'
  end.

Definition Close (se : SocketEnricher) : M SocketEnricher :=
  se ← Once_Do se (when (done se) close_chan);
  CloseLinks (links se);;
  let se := set_links [] se in
  emit (EvObjsClose (objs se));;
  mret se.

Definition NewSocketEnricher (e : StartEnv) : M (option SocketEnricher * option error) :=
  let se := {| objs := {| Sockets := None; objs_Programs := ∅ |};
               links := []; closeOnce := false; done := None |} in
  '(se, err) ← start e se;
  match err with
  | Some err => Close se;; mret (None, Some err)
  | None => mret (Some se, None)
  end.

(** [n] calls of [Close], one after the other, on the same service. *)
Fixpoint Close_times (n : nat) (se : SocketEnricher) : M SocketEnricher :=
  match n with
  | O => mret se
  | S n' => se ← Close se; Close_times n' se
  end.

End socketenricher.

(** * networktracer *)

Module networktracer.

Definition SocketsMapName : string := "sockets".

Record attachment := {
  collection : option Collection;
  perfRd : option Reader;
  sockFd : Z;
  (* the pids that have called Attach for this network namespace *)
  users : gset N;
}.

Definition set_collection (c : option Collection) (a : attachment) : attachment :=
  {| collection := c; perfRd := perfRd a; sockFd := sockFd a; users := users a |}.
Definition set_perfRd (rd : option Reader) (a : attachment) : attachment :=
  {| collection := collection a; perfRd := rd; sockFd := sockFd a; users := users a |}.
Definition set_sockFd (fd : Z) (a : attachment) : attachment :=
  {| collection := collection a; perfRd := perfRd a; sockFd := fd; users := users a |}.
Definition set_users (u : gset N) (a : attachment) : attachment :=
  {| collection := collection a; perfRd := perfRd a; sockFd := sockFd a; users := u |}.

(** What the kernel and the libraries answer during one [Attach]. *)
Record AttachEnv := {
  (* containerutils.GetNetNs(int(pid)) *)
  r_GetNetNs : uint32 → uint64 * option error;
  (* spec.RewriteConstants(consts): the spec it leaves behind, and its error *)
  r_RewriteConstants : list (string * N) → CollectionSpec → CollectionSpec * option error;
  (* ebpf.NewCollectionWithOptions(spec, opts), opts holding MapReplacements *)
  r_NewCollectionWithOptions :
    CollectionSpec → gmap string (option BpfMap) → option Collection * option error;
  (* gadgets.PerfBufferPages * os.Getpagesize() *)
  r_perCPUBuffer : Z;
  (* perf.NewReader(array, perCPUBuffer) *)
  r_NewReader : option BpfMap → Z → option Reader * option error;
  (* rawsock.OpenRawSock(pid) *)
  r_OpenRawSock : uint32 → Z * option error;
  (* syscall.SetsockoptInt(fd, SOL_SOCKET, opt, value) *)
  r_SetsockoptInt : Z → Z → Z → option error;
}.

(** The deferred function of [newAttachment], run when [err != nil]. *)
Definition rollback (a : attachment) : M unit :=
  when (perfRd a) (λ rd, emit (EvReaderClose rd));;
  (if decide (sockFd a = (-1)%Z) then mret tt else emit (EvUnixClose (sockFd a)));;
  when (collection a) (λ c, emit (EvCollectionClose c)).

(** [spec.RewriteConstants(consts)] on the spec stored at [l]. *)
Definition spec_RewriteConstants (e : AttachEnv) (l : specptr) (consts : list (string * N))
    : M (option error) :=
  cs ← spec_load l;
  let '(cs', err) := r_RewriteConstants e consts cs in
  spec_store l cs';;
  mret err.

(** The [if socketEnricher != nil] block: the options to load with, or the
    error to return. *)
Definition newAttachment_opts (e : AttachEnv) (pid : uint32) (netns : uint64)
    (socketEnricher : option socketenricher.SocketEnricher) (spec : specptr)
    : M (gmap string (option BpfMap) * option error) :=
  match socketEnricher with
  | Some se =>
    let u32netns := (netns mod 2 ^ 32)%N in
    err ← spec_RewriteConstants e spec [("current_netns", u32netns)];
    match err with
    | Some err =>
      mret (∅, Some (ErrWrap ("rewriting constants while attaching to pid " +:+ fmt_d pid +:+ ": ") err))
    | None => mret ({[ SocketsMapName := socketenricher.SocketsMap se ]}, None)
    end
  | None => mret (∅, None)
  end.

(** The body of [newAttachment]: the attachment as it stands when the
    function returns, and the error it returns. *)
Definition newAttachment_body (e : AttachEnv) (pid : uint32) (netns : uint64)
    (socketEnricher : option socketenricher.SocketEnricher) (spec : specptr)
    (bpfProgName bpfPerfMapName : string) (bpfSocketAttach : Z)
    : M (attachment * option error) :=
  let a := {| collection := None; perfRd := None; sockFd := (-1)%Z; users := {[ pid ]} |} in
  spec ← spec_Copy spec;
  '(opts, err) ← newAttachment_opts e pid netns socketEnricher spec;
  match err with
  | Some err => mret (a, Some err)
  | None =>
    cs ← spec_load spec;
    let '(c, err) := r_NewCollectionWithOptions e cs opts in
    let a := set_collection c a in
    when c (λ c, emit (EvNewCollection c));;
    match err with
    | Some err => mret (a, Some (ErrWrap "creating BPF collection: " err))
    | None =>
      match collection a with
      | None => panic "invalid memory address or nil pointer dereference"
      | Some coll =>
        let '(rd, err) := r_NewReader e (coll_Maps coll !! bpfPerfMapName) (r_perCPUBuffer e) in
        let a := set_perfRd rd a in
        when rd (λ rd, emit (EvNewReader rd));;
        match err with
        | Some err => mret (a, Some (ErrWrap "getting a perf reader: " err))
        | None =>
          match coll_Programs coll !! bpfProgName with
          | None => mret (a, Some (ErrNew ("BPF program " +:+ fmt_q bpfProgName +:+ " not found")))
          | Some prog =>
            let '(fd, err) := r_OpenRawSock e pid in
            let a := set_sockFd fd a in
            (if decide (fd = (-1)%Z) then mret tt else emit (EvOpenRawSock pid fd));;
            match err with
            | Some err => mret (a, Some (ErrWrap "opening raw socket: " err))
            | None =>
              match r_SetsockoptInt e (sockFd a) bpfSocketAttach prog with
              | Some err => mret (a, Some (ErrWrap "attaching BPF program: " err))
              | None =>
                emit (EvSetsockopt (sockFd a) bpfSocketAttach prog);;
                mret (a, None)
              end
            end
          end
        end
      end
    end
  end.

Definition newAttachment (e : AttachEnv) (pid : uint32) (netns : uint64)
    (socketEnricher : option socketenricher.SocketEnricher) (spec : specptr)
    (bpfProgName bpfPerfMapName : string) (bpfSocketAttach : Z)
    : M (option attachment * option error) :=
  '(a, err) ← newAttachment_body e pid netns socketEnricher spec
                bpfProgName bpfPerfMapName bpfSocketAttach;
  match err with
  | Some err => rollback a;; mret (None, Some err)
  | None => mret (Some a, None)
  end.

(** Modelled from the spec: [pkg/types] is outside src.  A status event is a
    severity tag and a message; [types.Err] and [types.Warn] build the error
    and the warning event. *)
Inductive EventType := NORMAL | ERR | WARN.
Record types_Event := { ev_Type : EventType; ev_Message : string }.
Definition types_Err (msg : string) : types_Event := {| ev_Type := ERR; ev_Message := msg |}.
Definition types_Warn (msg : string) : types_Event := {| ev_Type := WARN; ev_Message := msg |}.

(** [perf.Record]. *)
Record perf_Record := {
  RawSample : list N;
  LostSamples : uint64;
}.

(** What the environment answers when [NewTracer] runs. *)
Record NewTracerEnv := {
  (* gadgets.FixBpfKtimeGetBootNs(spec.Programs): the programs it leaves *)
  r_FixBpfKtimeGetBootNs : gmap string ProgramSpec → gmap string ProgramSpec;
  r_start : socketenricher.StartEnv;
}.

(** The loop over [spec.Maps] in [NewTracer]: the socket enricher it makes. *)
Fixpoint NewTracer_range (e : NewTracerEnv) (ms : list (string * MapSpec))
    : M (option socketenricher.SocketEnricher) :=
  match ms with
  | [] => mret None
  | (_, m) :: ms' =>
    if decide (ms_Name m = SocketsMapName) then
      '(socketEnricher, err) ← socketenricher.NewSocketEnricher (r_start e);
      (* Non fatal: support kernels without BTF *)
      when err (λ err, emit (EvLog ("creating socket enricher: " +:+ Error err)));;
      mret socketEnricher
    else NewTracer_range e ms'
  end.

(** The outcome of a blocked task: it returned, or it still waits in
    [rd.Read()]. *)
Inductive task := Returned | Reading.

Section Tracer.
Variable Event : Type.

Record Tracer := {
  socketEnricher : option socketenricher.SocketEnricher;
  spec : specptr;
  (* key: network namespace inode number *)
  attachments : gmap N attachment;
  bpfProgName : string;
  bpfPerfMapName : string;
  bpfSocketAttach : Z;
  baseEvent : types_Event → option Event;
  processEvent : list N → uint64 → option Event * option error;
  eventHandler : option Callback;
}.

Definition set_attachments (m : gmap N attachment) (t : Tracer) : Tracer :=
  {| socketEnricher := socketEnricher t; spec := spec t; attachments := m;
     bpfProgName := bpfProgName t; bpfPerfMapName := bpfPerfMapName t;
     bpfSocketAttach := bpfSocketAttach t; baseEvent := baseEvent t;
     processEvent := processEvent t; eventHandler := eventHandler t |}.
Definition set_socketEnricher (se : option socketenricher.SocketEnricher) (t : Tracer) : Tracer :=
  {| socketEnricher := se; spec := spec t; attachments := attachments t;
     bpfProgName := bpfProgName t; bpfPerfMapName := bpfPerfMapName t;
     bpfSocketAttach := bpfSocketAttach t; baseEvent := baseEvent t;
     processEvent := processEvent t; eventHandler := eventHandler t |}.

Definition NewTracer (e : NewTracerEnv) (spec : specptr)
    (bpfProgName bpfPerfMapName : string) (bpfSocketAttach : Z)
    (baseEvent : types_Event → option Event)
    (processEvent : list N → uint64 → option Event * option error)
    : M (option Tracer * option error) :=
  cs ← spec_load spec;
  let cs := {| cs_Maps := cs_Maps cs;
               cs_Programs := r_FixBpfKtimeGetBootNs e (cs_Programs cs);
               cs_Consts := cs_Consts cs |} in
  spec_store spec cs;;
  socketEnricher ← NewTracer_range e (cs_Maps cs);
  mret (Some {| socketEnricher := socketEnricher; spec := spec; attachments := ∅;
                bpfProgName := bpfProgName; bpfPerfMapName := bpfPerfMapName;
                bpfSocketAttach := bpfSocketAttach; baseEvent := baseEvent;
                processEvent := processEvent; eventHandler := None |}, None).

Definition Attach (e : AttachEnv) (pid : uint32) (eventCallback : Callback) (t : Tracer)
    : M (option error * Tracer) :=
  let '(netns, err) := r_GetNetNs e pid in
  match err with
  | Some err =>
    mret (Some (ErrWrap ("getting network namespace of pid " +:+ fmt_d pid +:+ ": ") err), t)
  | None =>
    match attachments t !! netns with
    | Some a =>
      mret (None, set_attachments (<[netns := set_users ({[ pid ]} ∪ users a) a]> (attachments t)) t)
    | None =>
      '(a, err) ← newAttachment e pid netns (socketEnricher t) (spec t)
                    (bpfProgName t) (bpfPerfMapName t) (bpfSocketAttach t);
      match err with
      | Some err =>
        mret (Some (ErrWrap ("creating network tracer attachment for pid " +:+ fmt_d pid +:+ ": ") err), t)
      | None =>
        match a with
        | None => panic "invalid memory address or nil pointer dereference"
        | Some a =>
          let t := set_attachments (<[netns := a]> (attachments t)) t in
          emit (EvGoListen netns (perfRd a) eventCallback);;
          mret (None, t)
        end
      end
    end
  end.

(** [listen], run against the answers [reads] of the successive [rd.Read()]
    calls: the values handed to [eventCallback], in order, and whether the
    task has returned when the answers run out. *)
Fixpoint listen (netns : uint64) (reads : list (perf_Record * option error))
    (baseEvent : types_Event → option Event)
    (processEvent : list N → uint64 → option Event * option error)
    : list (option Event) * task :=
  match reads with
  | [] => ([], Reading)
  | (record, err) :: reads' =>
    match err with
    | Some err =>
      if errors_Is_ErrClosed err then ([], Returned)
      else
        let msg := "Error reading perf ring buffer (" +:+ fmt_d netns +:+ "): " +:+ Error err in
        ([baseEvent (types_Err msg)], Returned)
    | None =>
      let '(rest, st) := listen netns reads' baseEvent processEvent in
      if negb (LostSamples record =? 0)%N then
        let msg := "lost " +:+ fmt_d (LostSamples record) +:+ " samples (" +:+ fmt_d netns +:+ ")" in
        (baseEvent (types_Warn msg) :: rest, st)
      else
        let '(event, err) := processEvent (RawSample record) netns in
        match err with
        | Some err => (baseEvent (types_Err (Error err)) :: rest, st)
        | None =>
          match event with
          | None => (rest, st)
          | Some ev => (Some ev :: rest, st)
          end
        end
    end
  end.

Definition releaseAttachment (netns : uint64) (a : attachment) (t : Tracer) : M Tracer :=
  match perfRd a with
  | None => panic "invalid memory address or nil pointer dereference"
  | Some rd => emit (EvReaderClose rd)
  end;;
  emit (EvUnixClose (sockFd a));;
  match collection a with
  | None => panic "invalid memory address or nil pointer dereference"
  | Some c => emit (EvCollectionClose c)
  end;;
  mret (set_attachments (delete netns (attachments t)) t).

(** [Detach], [its] being [t.attachments] in the order [range] enumerates
    it. *)
Fixpoint Detach (its : list (uint64 * attachment)) (pid : uint32) (t : Tracer)
    : M (option error * Tracer) :=
  match its with
  | [] => mret (Some (ErrNew ("pid " +:+ fmt_d pid +:+ " is not attached")), t)
  | (netns, a) :: its' =>
    if decide (pid ∈ users a) then
      let a := set_users (users a ∖ {[ pid ]}) a in
      let t := set_attachments (<[netns := a]> (attachments t)) t in
      if decide (size (users a) = 0) then
        t ← releaseAttachment netns a t;
        mret (None, t)
      else mret (None, t)
    else Detach its' pid t
  end.

(** The loop of [Close] over [t.attachments]. *)
Fixpoint Close_range (its : list (uint64 * attachment)) (t : Tracer) : M Tracer :=
  match its with
  | [] => mret t
  | (key, l) :: its' => t ← releaseAttachment key l t; Close_range its' t
  end.

Definition Close (its : list (uint64 * attachment)) (t : Tracer) : M Tracer :=
  t ← Close_range its t;
  match socketEnricher t with
  | Some se => se ← socketenricher.Close se; mret (set_socketEnricher (Some se) t)
  | None => mret t
  end.

(** [its] is a possible order for [range t.attachments]. *)
Definition range_of (t : Tracer) (its : list (uint64 * attachment)) : Prop :=
  its ≡ₚ map_to_list (attachments t).

End Tracer.

Arguments socketEnricher {Event} t.
Arguments spec {Event} t.
Arguments attachments {Event} t.
Arguments bpfProgName {Event} t.
Arguments bpfPerfMapName {Event} t.
Arguments bpfSocketAttach {Event} t.
Arguments baseEvent {Event} t.
Arguments processEvent {Event} t.
Arguments eventHandler {Event} t.
Arguments set_attachments {Event} m t.
Arguments set_socketEnricher {Event} se t.
Arguments NewTracer {Event} e spec bpfProgName bpfPerfMapName bpfSocketAttach baseEvent processEvent.
Arguments Attach {Event} e pid eventCallback t.
Arguments listen {Event} netns reads baseEvent processEvent.
Arguments releaseAttachment {Event} netns a t.
Arguments Detach {Event} its pid t.
Arguments Close_range {Event} its t.
Arguments Close {Event} its t.
Arguments range_of {Event} t its.

End networktracer.

(** * Specification-side definitions *)

Import networktracer.
Module SE := socketenricher.

(** Unfolding of the monad's operations in proofs. *)
Ltac munfold := unfold mbind, M_bind, mret, M_ret, when, emit, panic in *.

(** Reads that all succeeded. *)
Definition ok_reads (records : list perf_Record) : list (perf_Record * option error) :=
  (λ r, (r, None)) <$> records.

(** An attachment as [newAttachment] returns it: reader and collection are
    not nil, so that [releaseAttachment] can close them. *)
Definition loaded (a : attachment) : Prop :=
  is_Some (perfRd a) ∧ is_Some (collection a).

(** The three releases of [releaseAttachment], in its order. *)
Definition release_events (a : attachment) : list kevent :=
  match perfRd a, collection a with
  | Some rd, Some c => [EvReaderClose rd; EvUnixClose (sockFd a); EvCollectionClose c]
  | _, _ => []
  end.

(** The links a successful [start] leaves in [se.links], in the order it
    attached them: the twelve probes, then the cleanup iterator. *)
Definition started_links (e : SE.StartEnv) : list Link :=
  let o := (SE.r_LoadAndAssign e).1 in
  ((λ p, (SE.attach_probe e o p).1) <$> SE.probes)
    ++ [(SE.r_AttachIter e (objs_Programs o !! "IgSkCleanup") (Sockets o)).1].
Arguments started_links : simpl never.

Definition is_ObjsClose (ev : kevent) : bool :=
  match ev with EvObjsClose _ => true | _ => false end.
Definition is_ChanClose (ev : kevent) : bool :=
  match ev with EvChanClose _ => true | _ => false end.

(** The events of [w'] that came after those of [w]. *)
Definition new_events (w w' : World) : list kevent :=
  drop (length (w_trace w)) (w_trace w').

(** ** The releases behind the calls of [se.objs.Close()]

    [socketenricherObjects.Close] is generated by bpf2go and is not under src.
    A call on loaded objects releases them.  What a call on objects that an
    earlier call has closed does is the parameter [idempotent]: it releases
    nothing when [true] (closing a closed descriptor is a no-op), it is a
    release of its own when [false]. *)
#[global] Instance socketenricherObjects_eq_dec : EqDecision socketenricherObjects.
Proof. solve_decision. Defined.

(** The events of [evs] that perform a release or a close, [closed] being the
    objects closed before: [evs] without the calls of [se.objs.Close()] that
    release nothing. *)
Fixpoint performed_from (idempotent : bool) (closed : list socketenricherObjects)
    (evs : list kevent) : list kevent :=
  match evs with
  | [] => []
  | EvObjsClose o :: evs' =>
    if idempotent && bool_decide (o ∈ closed)
    then performed_from idempotent closed evs'
    else EvObjsClose o :: performed_from idempotent (o :: closed) evs'
  | ev :: evs' => ev :: performed_from idempotent closed evs'
  end.

Definition performed (idempotent : bool) (evs : list kevent) : list kevent :=
  performed_from idempotent [] evs.

(** The spec declares a map named "sockets". *)
Definition declares_sockets (cs : CollectionSpec) : Prop :=
  Exists (λ km, ms_Name km.2 = SocketsMapName) (cs_Maps cs).

(** The spec as [NewTracer] leaves it after
    [gadgets.FixBpfKtimeGetBootNs(spec.Programs)]. *)
Definition fixed_spec (e : NewTracerEnv) (cs : CollectionSpec) : CollectionSpec :=
  {| cs_Maps := cs_Maps cs;
     cs_Programs := r_FixBpfKtimeGetBootNs e (cs_Programs cs);
     cs_Consts := cs_Consts cs |}.

(** C4 as the specification words it: when the spec declares the "sockets"
    map and the enrichment service cannot be constructed, [NewTracer] returns
    an error. *)
Definition C4_as_stated {Event : Type} (e : NewTracerEnv) (spec : specptr)
    (bpfProgName bpfPerfMapName : string) (bpfSocketAttach : Z)
    (baseEvent : types_Event → option Event)
    (processEvent : list N → uint64 → option Event * option error) (w : World) : Prop :=
  ∀ cs, w_specs w !! spec = Some cs →
  declares_sockets cs →
  (∀ w1, ∃ err w2, SE.NewSocketEnricher (r_start e) w1 = Ret (None, Some err) w2) →
  ∃ t err w',
    NewTracer e spec bpfProgName bpfPerfMapName bpfSocketAttach baseEvent processEvent w
      = Ret (t, Some err) w'.

(** * Example inputs *)

Definition empty_world : World := {| w_specs := ∅; w_chans := ∅; w_trace := [] |}.

Definition ex_objs : socketenricherObjects :=
  {| Sockets := Some 7%N; objs_Programs := {[ "IgSkCleanup" := 40%Z; "IgSocketsIt" := 41%Z ]} |}.

(** A kernel on which every step of [start] succeeds; the links are numbered
    in the order [start] asks for them. *)
Definition ex_start_env : SE.StartEnv :=
  {| SE.r_loadSocketenricher := None;
     SE.r_LoadAndAssign := (ex_objs, None);
     SE.r_Kprobe := λ sym _,
       ((if String.eqb sym "inet_bind" then 1
         else if String.eqb sym "inet6_bind" then 3
         else if String.eqb sym "tcp_v4_connect" then 5
         else if String.eqb sym "tcp_v6_connect" then 7
         else if String.eqb sym "udp_sendmsg" then 9
         else if String.eqb sym "udpv6_sendmsg" then 10
         else if String.eqb sym "inet_release" then 11
         else 12)%N, None);
     SE.r_Kretprobe := λ sym _,
       ((if String.eqb sym "inet_bind" then 2
         else if String.eqb sym "inet6_bind" then 4
         else if String.eqb sym "tcp_v4_connect" then 6
         else 8)%N, None);
     SE.r_AttachIter := λ prog m, ((if decide (prog = Some 41%Z) then 20 else 13)%N, None);
     SE.r_IterOpen := λ _, (30%N, None);
     SE.r_ReadAll := λ _, None |}.

(** The service and the world that [NewSocketEnricher] returns there. *)
Definition ex_se : SE.SocketEnricher :=
  {| SE.objs := ex_objs;
     SE.links := [1; 2; 3; 4; 5; 6; 7; 8; 9; 10; 11; 12; 13]%N;
     SE.closeOnce := false;
     SE.done := Some 0%N |}.

Definition ex_started_world : World :=
  {| w_specs := ∅;
     w_chans := {[ 0%N := false ]};
     w_trace :=
       [EvLoadAndAssign ex_objs] ++ (EvLinkAttach <$> [1; 2; 3; 4; 5; 6; 7; 8; 9; 10; 11; 12]%N)
       ++ [EvLinkAttach 20%N; EvFileOpen 30%N; EvLinkAttach 13%N; EvGoCleanup 13%N 0%N;
           EvFileClose 30%N; EvLinkClose 20%N] |}.

(** A kernel without BTF: the enricher's assets do not load. *)
Definition ex_start_env_nobtf : SE.StartEnv :=
  {| SE.r_loadSocketenricher := Some (ErrNew "BTF not found");
     SE.r_LoadAndAssign := SE.r_LoadAndAssign ex_start_env;
     SE.r_Kprobe := SE.r_Kprobe ex_start_env;
     SE.r_Kretprobe := SE.r_Kretprobe ex_start_env;
     SE.r_AttachIter := SE.r_AttachIter ex_start_env;
     SE.r_IterOpen := SE.r_IterOpen ex_start_env;
     SE.r_ReadAll := SE.r_ReadAll ex_start_env |}.

(** A gadget's spec that uses the ownership table, stored at address 1. *)
Definition ex_spec : CollectionSpec :=
  {| cs_Maps := [("events", {| ms_Name := "events" |}); ("sockets", {| ms_Name := "sockets" |})];
     cs_Programs := {[ "ig_trace_dns" := {| ps_Instructions := [1; 2; 3]%N |} ]};
     cs_Consts := {[ "current_netns" := 0%N ]} |}.

Definition ex_world : World :=
  {| w_specs := {[ 1%N := ex_spec ]}; w_chans := ∅; w_trace := [] |}.

Definition ex_newtracer_env (start : SE.StartEnv) : NewTracerEnv :=
  {| r_FixBpfKtimeGetBootNs := λ progs, progs; r_start := start |}.

(** Events are strings in the examples. *)
Definition ex_baseEvent (ev : types_Event) : option string := Some (ev_Message ev).
Definition ex_processEvent (raw : list N) (netns : uint64) : option string * option error :=
  match raw with
  | [] => (None, Some (ErrNew "short sample"))
  | 0%N :: _ => (None, None)
  | _ => (Some ("sample in " +:+ fmt_d netns), None)
  end.

(** ** Construction of an attachment *)

(** The acquisition events of the handles [c], [rd], [fd], in the order
    [newAttachment] acquires them; a nil handle or the descriptor -1 stands for
    a resource that was not acquired. *)
Definition acquired (c : option Collection) (rd : option Reader) (pid : uint32) (fd : Z)
    : list kevent :=
  from_option (λ c, [EvNewCollection c]) [] c
  ++ from_option (λ rd, [EvNewReader rd]) [] rd
  ++ (if decide (fd = (-1)%Z) then [] else [EvOpenRawSock pid fd]).

(** Their releases in the rollback order: reader, raw socket, collection. *)
Definition released (rd : option Reader) (fd : Z) (c : option Collection) : list kevent :=
  from_option (λ rd, [EvReaderClose rd]) [] rd
  ++ (if decide (fd = (-1)%Z) then [] else [EvUnixClose fd])
  ++ from_option (λ c, [EvCollectionClose c]) [] c.

(** The content of the private copy that [newAttachment] loads, for a
    template of content [cs]. *)
Definition loaded_spec (e : AttachEnv) (netns : uint64)
    (se : option SE.SocketEnricher) (cs : CollectionSpec) : CollectionSpec :=
  match se with
  | Some _ => (r_RewriteConstants e [("current_netns", (netns mod 2 ^ 32)%N)] cs).1
  | None => cs
  end.

Definition rewrite_error (e : AttachEnv) (netns : uint64)
    (se : option SE.SocketEnricher) (cs : CollectionSpec) : option error :=
  match se with
  | Some _ => (r_RewriteConstants e [("current_netns", (netns mod 2 ^ 32)%N)] cs).2
  | None => None
  end.

Definition map_replacements (se : option SE.SocketEnricher) : gmap string (option BpfMap) :=
  match se with
  | Some se => {[ SocketsMapName := SE.SocketsMap se ]}
  | None => ∅
  end.

(** Every step of the construction succeeds on [e], with these handles. *)
Definition constructs (e : AttachEnv) (pid : uint32) (netns : uint64)
    (se : option SE.SocketEnricher) (cs : CollectionSpec)
    (bpfProgName bpfPerfMapName : string) (bpfSocketAttach : Z)
    (c : Collection) (rd : option Reader) (fd : Z) (prog : Program) : Prop :=
  rewrite_error e netns se cs = None
  ∧ r_NewCollectionWithOptions e (loaded_spec e netns se cs) (map_replacements se) = (Some c, None)
  ∧ r_NewReader e (coll_Maps c !! bpfPerfMapName) (r_perCPUBuffer e) = (rd, None)
  ∧ coll_Programs c !! bpfProgName = Some prog
  ∧ r_OpenRawSock e pid = (fd, None)
  ∧ r_SetsockoptInt e fd bpfSocketAttach prog = None.

(** ** Histories of calls *)

(** A call on the tracer, with what the environment answers to it: the
    kernel's answers for [Attach], the order of [range] for [Detach]. *)
Inductive call :=
| CallAttach (e : AttachEnv) (pid : uint32) (cb : Callback)
| CallDetach (its : list (uint64 * attachment)) (pid : uint32).

Section Histories.
Context {Event : Type}.

(** [steps t w h t' w']: the calls of [h], made one after the other from the
    tracer [t] in the world [w], returned the errors [h] records and left the
    tracer [t'] and the world [w']. *)
Inductive steps : Tracer Event → World → list (call * option error) → Tracer Event → World → Prop :=
| steps_nil t w : steps t w [] t w
| steps_Attach t w e pid cb err t1 w1 h t' w' :
    Attach e pid cb t w = Ret (err, t1) w1 →
    steps t1 w1 h t' w' →
    steps t w ((CallAttach e pid cb, err) :: h) t' w'
| steps_Detach t w its pid err t1 w1 h t' w' :
    range_of t its →
    Detach its pid t w = Ret (err, t1) w1 →
    steps t1 w1 h t' w' →
    steps t w ((CallDetach its pid, err) :: h) t' w'.



End Histories.





(** ** Example inputs for the tracer *)

(** Two network namespaces: pids below 100 live in the first. *)
Definition ex_nsof (pid : uint32) : uint64 :=
  if (pid <? 100)%N then 4026531992%N else 4026532208%N.

(** [RewriteConstants] as the loader library documents it: every named
    constant must exist in the spec, and gets its new value. *)
Definition ex_RewriteConstants (consts : list (string * N)) (cs : CollectionSpec)
    : CollectionSpec * option error :=
  if forallb (λ kv, bool_decide (is_Some (cs_Consts cs !! kv.1))) consts
  then ({| cs_Maps := cs_Maps cs; cs_Programs := cs_Programs cs;
           cs_Consts := foldr (λ kv m, <[kv.1 := kv.2]> m) (cs_Consts cs) consts |}, None)
  else (cs, Some (ErrNew "spec is missing one or more constants")).

(** The collection loaded from [cs]; its id shows the [current_netns] it was
    loaded with. *)
Definition ex_collection (cs : CollectionSpec) (with_program : bool) : Collection :=
  {| coll_id := default 0%N (cs_Consts cs !! "current_netns");
     coll_Programs := if with_program then {[ "ig_trace_dns" := 50%Z ]} else ∅;
     coll_Maps := {[ "events" := 60%N ]} |}.

(** A kernel on which the construction fails at step [fail] (1 rewriting,
    2 loading, 3 reader, 4 program lookup, 5 raw socket, 6 socket option),
    and succeeds for any other [fail]. *)
Definition ex_attach_env (fail : nat) : AttachEnv :=
  {| r_GetNetNs := λ pid, (ex_nsof pid, None);
     r_RewriteConstants := λ consts cs,
       if decide (fail = 1) then (cs, Some (ErrNew "constant not found"))
       else ex_RewriteConstants consts cs;
     r_NewCollectionWithOptions := λ cs opts,
       if decide (fail = 2) then (None, Some (ErrNew "verifier rejected program"))
       else (Some (ex_collection cs (bool_decide (fail ≠ 4))), None);
     r_perCPUBuffer := 262144%Z;
     r_NewReader := λ m size,
       if decide (fail = 3) then (None, Some (ErrNew "cannot mmap ring"))
       else (Some 70%N, None);
     r_OpenRawSock := λ pid,
       if decide (fail = 5) then ((-1)%Z, Some (ErrNew "cannot enter netns"))
       else (9%Z, None);
     r_SetsockoptInt := λ fd opt value,
       if decide (fail = 6) then Some (ErrNew "operation not permitted") else None |}.

(** The same kernel once the pids have moved to the second namespace; it
    hands out another reader and another descriptor. *)
Definition ex_attach_env_moved : AttachEnv :=
  {| r_GetNetNs := λ _, (4026532208%N, None);
     r_RewriteConstants := ex_RewriteConstants;
     r_NewCollectionWithOptions := λ cs opts, (Some (ex_collection cs true), None);
     r_perCPUBuffer := 262144%Z;
     r_NewReader := λ m size, (Some 71%N, None);
     r_OpenRawSock := λ pid, (11%Z, None);
     r_SetsockoptInt := λ fd opt value, None |}.

Definition ex_tracer : Tracer string :=
  {| socketEnricher := Some ex_se; spec := 1%N; attachments := ∅;
     bpfProgName := "ig_trace_dns"; bpfPerfMapName := "events"; bpfSocketAttach := 50%Z;
     baseEvent := ex_baseEvent; processEvent := ex_processEvent; eventHandler := None |}.

(** The events of a construction that fails at step [fail], pid 10. *)
Definition ex_rollback (fail : nat) : option (list kevent) :=
  match newAttachment (ex_attach_env fail) 10%N (ex_nsof 10%N) (Some ex_se) 1%N
          "ig_trace_dns" "events" 50%Z ex_world with
  | Ret (None, Some _) w' => Some (new_events ex_world w')
  | _ => None
  end.

(** The collections loaded for the two namespaces. *)
Definition ex_coll1 : Collection :=
  {| coll_id := 4026531992%N; coll_Programs := {[ "ig_trace_dns" := 50%Z ]};
     coll_Maps := {[ "events" := 60%N ]} |}.
Definition ex_coll2 : Collection :=
  {| coll_id := 4026532208%N; coll_Programs := {[ "ig_trace_dns" := 50%Z ]};
     coll_Maps := {[ "events" := 60%N ]} |}.

(** A registry in which pid 10 is listed twice: alone in the first
    namespace, beside pid 200 in the second. *)
Definition ex_att1 : attachment :=
  {| collection := Some ex_coll1; perfRd := Some 70%N; sockFd := 9%Z; users := {[ 10%N ]} |}.
Definition ex_att2 : attachment :=
  {| collection := Some ex_coll2; perfRd := Some 71%N; sockFd := 11%Z;
     users := {[ 10%N; 200%N ]} |}.
Definition ex_tracer2 : Tracer string :=
  set_attachments {[ 4026531992%N := ex_att1; 4026532208%N := ex_att2 ]} ex_tracer.

(** The order in which the examples enumerate the registry of [ex_tracer2]. *)
Definition ex_range : list (uint64 * attachment) :=
  [(4026531992%N, ex_att1); (4026532208%N, ex_att2)].

(** Records of the examples: three samples lost; an empty sample, which
    [ex_processEvent] rejects; a sample it filters out; a sample it decodes. *)
Definition ex_lost : perf_Record := {| RawSample := []; LostSamples := 3 |}.
Definition ex_short : perf_Record := {| RawSample := []; LostSamples := 0 |}.
Definition ex_filtered : perf_Record := {| RawSample := [0%N; 7%N]; LostSamples := 0 |}.
Definition ex_sample : perf_Record := {| RawSample := [1%N; 7%N]; LostSamples := 0 |}.

(** A history on two namespaces: pids 10 and 11 attach in the first, pid 200
    in the second; then pid 10 detaches, and a Detach of pid 300, never
    attached, fails. *)
Definition ex_shared1 : attachment :=
  {| collection := Some ex_coll1; perfRd := Some 70%N; sockFd := 9%Z;
     users := {[ 10%N; 11%N ]} |}.
Definition ex_shared1' : attachment :=
  {| collection := Some ex_coll1; perfRd := Some 70%N; sockFd := 9%Z; users := {[ 11%N ]} |}.
Definition ex_single2 : attachment :=
  {| collection := Some ex_coll2; perfRd := Some 70%N; sockFd := 9%Z; users := {[ 200%N ]} |}.
Definition ex_history : list (call * option error) :=
  [ (CallAttach (ex_attach_env 0) 10%N 1%N, None);
    (CallAttach (ex_attach_env 0) 200%N 1%N, None);
    (CallAttach (ex_attach_env 0) 11%N 1%N, None);
    (CallDetach [(4026531992%N, ex_shared1); (4026532208%N, ex_single2)] 10%N, None);
    (CallDetach [(4026531992%N, ex_shared1'); (4026532208%N, ex_single2)] 300%N,
     Some (ErrNew "pid 300 is not attached")) ].

(** * The periodic sweep of the socket enricher *)

(** One wake-up of the [select] in [cleanupDeletedSockets]: the receive from
    [se.done], or a tick of the ticker, with what the kernel answers to the
    sweep that the tick starts. *)
Inductive wakeup :=
| WakeDone
| WakeTick (e : SE.StartEnv).

(** The state of the sweep task: it returned, or it waits in [select]. *)
Inductive sweep := Stopped | Waiting.

Definition cleanupDeletedSocketsNow (e : SE.StartEnv) (cleanupIter : Link) : M (option error) :=
  let '(file, err) := SE.r_IterOpen e cleanupIter in
  match err with
  | Some err => mret (Some (ErrWrap "open BPF iterator: " err))
  | None =>
    emit (EvFileOpen file);;
    let r := match SE.r_ReadAll e file with
             | Some err => Some (ErrWrap "read BPF iterator: " err)
             | None => None
             end in
    (* defer file.Close() *)
    emit (EvFileClose file);;
    mret r
  end.

(** [fmt.Printf("socket enricher: %v\n", err)]: the line printed. *)
Definition sweep_line (err : error) : string :=
  "socket enricher: " +:+ Error err +:+ String (Ascii.ascii_of_nat 10) EmptyString.

(** [cleanupDeletedSockets], run against the successive wake-ups of its
    [select]: the lines it prints, and whether it has returned when the
    wake-ups run out.  The ticker's period is not modelled. *)
Fixpoint cleanupDeletedSockets (wakeups : list wakeup) (cleanupIter : Link)
    : M (list string * sweep) :=
  match wakeups with
  | [] => mret ([], Waiting)
  | WakeDone :: _ => mret ([], Stopped)
  | WakeTick e :: wakeups' =>
    err ← cleanupDeletedSocketsNow e cleanupIter;
    '(out, st) ← cleanupDeletedSockets wakeups' cleanupIter;
    mret (match err with
          | Some err => sweep_line err :: out
          | None => out
          end, st)
  end.

(** What one sweep returns and the events it leaves, by the kernel's
    answers: the file is closed whenever it was opened. *)
Definition sweep_error (e : SE.StartEnv) (cleanupIter : Link) : option error :=
  match SE.r_IterOpen e cleanupIter with
  | (_, Some err) => Some (ErrWrap "open BPF iterator: " err)
  | (file, None) =>
    match SE.r_ReadAll e file with
    | Some err => Some (ErrWrap "read BPF iterator: " err)
    | None => None
    end
  end.

Definition sweep_events (e : SE.StartEnv) (cleanupIter : Link) : list kevent :=
  match SE.r_IterOpen e cleanupIter with
  | (_, Some _) => []
  | (file, None) => [EvFileOpen file; EvFileClose file]
  end.

(** ** Projections of a trace *)

Definition link_attached (ev : kevent) : option Link :=
  match ev with EvLinkAttach l => Some l | _ => None end.
Definition link_closed (ev : kevent) : option Link :=
  match ev with EvLinkClose l => Some l | _ => None end.
Definition file_opened (ev : kevent) : option File :=
  match ev with EvFileOpen f => Some f | _ => None end.
Definition file_closed (ev : kevent) : option File :=
  match ev with EvFileClose f => Some f | _ => None end.
Definition is_GoCleanup (ev : kevent) : bool :=
  match ev with EvGoCleanup _ _ => true | _ => false end.

(** The links that a successful [start] asks for, by the kernel's answers. *)
Definition probe_links (e : SE.StartEnv) : list Link :=
  (λ p, (SE.attach_probe e (SE.r_LoadAndAssign e).1 p).1) <$> SE.probes.
Definition seeding_iter (e : SE.StartEnv) : Link :=
  (SE.r_AttachIter e (objs_Programs (SE.r_LoadAndAssign e).1 !! "IgSocketsIt") None).1.
Definition cleanup_iter (e : SE.StartEnv) : Link :=
  (SE.r_AttachIter e (objs_Programs (SE.r_LoadAndAssign e).1 !! "IgSkCleanup")
     (Sockets (SE.r_LoadAndAssign e).1)).1.
Arguments probe_links : simpl never.

(** An answer without error. *)
Definition succeeded (err : option error) : bool :=
  match err with None => true | Some _ => false end.

(** Every answer that [start] asks the kernel and the loader for is without
    error. *)
Definition start_succeeds (e : SE.StartEnv) : bool :=
  let o := (SE.r_LoadAndAssign e).1 in
  succeeded (SE.r_loadSocketenricher e)
  && succeeded (SE.r_LoadAndAssign e).2
  && forallb (λ p, succeeded (SE.attach_probe e o p).2) SE.probes
  && succeeded (SE.r_AttachIter e (objs_Programs o !! "IgSocketsIt") None).2
  && succeeded (SE.r_IterOpen e (seeding_iter e)).2
  && succeeded (SE.r_ReadAll e (SE.r_IterOpen e (seeding_iter e)).1)
  && succeeded (SE.r_AttachIter e (objs_Programs o !! "IgSkCleanup") (Sockets o)).2.

(** The events of a [start] that went through, [c] being the channel made. *)
Definition start_events (e : SE.StartEnv) (c : chan) : list kevent :=
  [EvLoadAndAssign (SE.r_LoadAndAssign e).1]
  ++ (EvLinkAttach <$> probe_links e)
  ++ [EvLinkAttach (seeding_iter e);
      EvFileOpen (SE.r_IterOpen e (seeding_iter e)).1;
      EvLinkAttach (cleanup_iter e);
      EvGoCleanup (cleanup_iter e) c;
      EvFileClose (SE.r_IterOpen e (seeding_iter e)).1;
      EvLinkClose (seeding_iter e)].
Arguments start_events : simpl never.

(** The links that the caller of [NewSocketEnricher] holds afterwards. *)
Definition held_links (r : option SE.SocketEnricher) : list Link :=
  match r with Some se => SE.links se | None => [] end.

(** A kernel on which the seeding iterator cannot be read. *)
Definition ex_start_env_noread : SE.StartEnv :=
  {| SE.r_loadSocketenricher := None;
     SE.r_LoadAndAssign := SE.r_LoadAndAssign ex_start_env;
     SE.r_Kprobe := SE.r_Kprobe ex_start_env;
     SE.r_Kretprobe := SE.r_Kretprobe ex_start_env;
     SE.r_AttachIter := SE.r_AttachIter ex_start_env;
     SE.r_IterOpen := SE.r_IterOpen ex_start_env;
     SE.r_ReadAll := λ _, Some (ErrNew "input/output error") |}.

(** * Kernel resources of the attachments *)

(** What an attachment holds of the kernel: a loaded collection, a perf
    reader, a raw socket. *)
Inductive resource :=
| RCollection (c : Collection)
| RReader (rd : Reader)
| RSock (fd : Z).

(** The resource that an event acquires, and the one that it releases. *)
Definition acquires (ev : kevent) : option resource :=
  match ev with
  | EvNewCollection c => Some (RCollection c)
  | EvNewReader rd => Some (RReader rd)
  | EvOpenRawSock _ fd => Some (RSock fd)
  | _ => None
  end.
Definition releases (ev : kevent) : option resource :=
  match ev with
  | EvCollectionClose c => Some (RCollection c)
  | EvReaderClose rd => Some (RReader rd)
  | EvUnixClose fd => Some (RSock fd)
  | _ => None
  end.

(** The resources behind the handles of an attachment; nil and -1 stand for
    none. *)
Definition held (a : attachment) : list resource :=
  from_option (λ c, [RCollection c]) [] (collection a)
  ++ from_option (λ rd, [RReader rd]) [] (perfRd a)
  ++ (if decide (sockFd a = (-1)%Z) then [] else [RSock (sockFd a)]).

Fixpoint held_items (its : list (uint64 * attachment)) : list resource :=
  match its with
  | [] => []
  | (_, a) :: its' => held a ++ held_items its'
  end.

(** The resources that the attachments of a registry hold. *)
Definition held_in (m : gmap N attachment) : list resource :=
  held_items (map_to_list m).

(** The contract of the loader and of the kernel that [newAttachment] relies
    on: an answer without error carries a handle, not nil and not -1. *)
Definition well_behaved (e : AttachEnv) : Prop :=
  (∀ cs opts c, r_NewCollectionWithOptions e cs opts = (c, None) → is_Some c)
  ∧ (∀ m size rd, r_NewReader e m size = (rd, None) → is_Some rd)
  ∧ (∀ pid fd, r_OpenRawSock e pid = (fd, None) → fd ≠ (-1)%Z).

(** An attachment that [releaseAttachment] can release: collection, reader
    and raw socket are there. *)
Definition sound (a : attachment) : Prop :=
  loaded a ∧ sockFd a ≠ (-1)%Z.

Definition registry_sound (m : gmap N attachment) : Prop :=
  map_Forall (λ _ a, sound a) m.

(** Every [Attach] of a history ran against a kernel that keeps the
    contract. *)
Definition well_behaved_history (h : list (call * option error)) : Prop :=
  Forall (λ c, match c.1 with
               | CallAttach e _ _ => well_behaved e
               | CallDetach _ _ => True
               end) h.

(** ** Events by the component that leaves them *)

(** The events of the enrichment service, with the log line of [NewTracer]
    about it; and the events of the attachments. *)
Definition service_event (ev : kevent) : bool :=
  match ev with
  | EvLoadAndAssign _ | EvObjsClose _ | EvLinkAttach _ | EvLinkClose _
  | EvFileOpen _ | EvFileClose _ | EvGoCleanup _ _ | EvChanClose _ | EvLog _ => true
  | _ => false
  end.
Definition attachment_event (ev : kevent) : bool :=
  match ev with
  | EvNewCollection _ | EvCollectionClose _ | EvNewReader _ | EvReaderClose _
  | EvOpenRawSock _ _ | EvUnixClose _ | EvSetsockopt _ _ _ | EvGoListen _ _ _ => true
  | _ => false
  end.

(** What the enrichment service of a new tracer is, and the events of its
    construction. *)
Definition service_ready (se : option SE.SocketEnricher) (w : World) (evs : list kevent)
    : Prop :=
  Forall (λ ev, service_event ev = true) evs
  ∧ omap link_attached evs ≡ₚ held_links se ++ omap link_closed evs
  ∧ omap file_closed evs = omap file_opened evs
  ∧ filter is_ChanClose evs = []
  ∧ match se with
    | Some se =>
      SE.closeOnce se = false
      ∧ length (filter is_GoCleanup evs) = 1
      ∧ ∃ c, SE.done se = Some c ∧ w_chans w !! c = Some false
    | None => filter is_GoCleanup evs = []
    end.

(** [se.Close()] can run: the once-guard is spent, or there is no channel
    to close, or the channel is open. *)
Definition closable (se : SE.SocketEnricher) (w : World) : Prop :=
  SE.closeOnce se = true
  ∨ SE.done se = None
  ∨ ∃ c, SE.done se = Some c ∧ w_chans w !! c = Some false.

(** ** More example inputs *)

(** The world that [NewTracer] leaves from [ex_world] on the kernel
    [ex_start_env]: the service is started, its channel is open. *)
Definition ex_new_world : World :=
  {| w_specs := w_specs ex_world;
     w_chans := w_chans ex_started_world;
     w_trace := w_trace ex_started_world |}.

(** Two pids attach, in two namespaces. *)
Definition ex_life : list (call * option error) :=
  [ (CallAttach (ex_attach_env 0) 10%N 1%N, None);
    (CallAttach (ex_attach_env 0) 200%N 1%N, None) ].

(** The registry of [ex_tracer2] once pid 11 has joined the first
    namespace, as [range] may enumerate it. *)
Definition ex_range_joined : list (uint64 * attachment) :=
  [(4026531992%N, set_users ({[ 11%N ]} ∪ users ex_att1) ex_att1); (4026532208%N, ex_att2)].

(** * The ingestion loop *)

Section Listen.
Context {Event : Type}.
Implicit Types (baseEvent : types_Event → option Event).
Implicit Types (processEvent : list N → uint64 → option Event * option error).

Lemma listen_cons_ok netns record reads baseEvent processEvent :
  listen netns ((record, None) :: reads) baseEvent processEvent =
  let out := listen netns reads baseEvent processEvent in
  if negb (LostSamples record =? 0)%N then
    (baseEvent (types_Warn ("lost " +:+ fmt_d (LostSamples record) +:+ " samples ("
                            +:+ fmt_d netns +:+ ")")) :: out.1, out.2)
  else
    match processEvent (RawSample record) netns with
    | (_, Some err) => (baseEvent (types_Err (Error err)) :: out.1, out.2)
    | (None, None) => out
    | (Some ev, None) => (Some ev :: out.1, out.2)
    end.
Proof.
  simpl. destruct (listen netns reads baseEvent processEvent) as [rest st]. simpl.
  destruct (LostSamples record =? 0)%N; simpl; [|done].
  destruct (processEvent _ _) as [[ev|] [err|]]; done.
Qed.

Lemma listen_app_ok netns records reads baseEvent processEvent :
  listen netns (ok_reads records ++ reads) baseEvent processEvent =
  ((listen netns (ok_reads records) baseEvent processEvent).1
     ++ (listen netns reads baseEvent processEvent).1,
   (listen netns reads baseEvent processEvent).2).
Proof.
  induction records as [|r records IH].
  - simpl. by destruct (listen netns reads baseEvent processEvent).
  - unfold ok_reads in *. rewrite fmap_cons, <- app_comm_cons, !listen_cons_ok.
    cbv zeta. rewrite IH. simpl.
    destruct (LostSamples r =? 0)%N; simpl; [|done].
    destruct (processEvent _ _) as [[ev|] [err|]]; done.
Qed.

(** C5: a failed read ends the task.  After any number of successful reads, a
    read that fails with the reader-closed condition hands nothing to the
    callback, and a read that fails with another error hands it exactly one
    error event; in both cases the task has returned, and the answers [rest]
    that would follow are never looked at. *)
Theorem C5_listen_read_error netns records record err rest baseEvent processEvent :
  listen netns (ok_reads records ++ (record, Some err) :: rest) baseEvent processEvent =
  ((listen netns (ok_reads records) baseEvent processEvent).1 ++
     (if errors_Is_ErrClosed err then []
      else [baseEvent (types_Err ("Error reading perf ring buffer (" +:+ fmt_d netns
                                  +:+ "): " +:+ Error err))]),
   Returned).
Proof. rewrite listen_app_ok. simpl. by destruct (errors_Is_ErrClosed err). Qed.

(** C6: what one successfully read record hands to the callback, before the
    loop goes on with the following reads: a warning event (tagged [WARN], not
    [ERR]) naming the loss count and the namespace when samples were lost;
    an error event when the decoder fails; nothing when the decoder returns
    neither an event nor an error. *)
Theorem C6_listen_record netns record reads baseEvent processEvent :
  let out := listen netns reads baseEvent processEvent in
  let warning := types_Warn ("lost " +:+ fmt_d (LostSamples record) +:+ " samples ("
                             +:+ fmt_d netns +:+ ")") in
  ((0 < LostSamples record)%N →
     listen netns ((record, None) :: reads) baseEvent processEvent
       = (baseEvent warning :: out.1, out.2)
     ∧ ev_Type warning = WARN ∧ ev_Type warning ≠ ERR)
  ∧ (∀ event err,
       LostSamples record = 0%N →
       processEvent (RawSample record) netns = (event, Some err) →
       listen netns ((record, None) :: reads) baseEvent processEvent
         = (baseEvent (types_Err (Error err)) :: out.1, out.2))
  ∧ (LostSamples record = 0%N →
     processEvent (RawSample record) netns = (None, None) →
     listen netns ((record, None) :: reads) baseEvent processEvent = out).
Proof.
  intros out warning. rewrite listen_cons_ok. fold out.
  split; [|split].
  - intros Hlost. assert ((LostSamples record =? 0)%N = false) as ->
      by (apply N.eqb_neq; lia).
    done.
  - intros event err -> ->. by destruct event.
  - intros -> ->. by destruct out.
Qed.

End Listen.

(** * The attachment registry: Detach *)

Section Registry.
Context {Event : Type}.
Implicit Types (t : Tracer Event) (its : list (uint64 * attachment)).

Lemma releaseAttachment_loaded ns a t w :
  loaded a →
  releaseAttachment ns a t w =
    Ret (set_attachments (delete ns (attachments t)) t)
        (set_trace (λ tr, tr ++ release_events a) w).
Proof.
  intros [[rd Hrd] [c Hc]]. unfold releaseAttachment, release_events.
  rewrite Hrd, Hc. munfold. unfold set_trace. simpl.
  by rewrite <- !app_assoc.
Qed.

Lemma Detach_skip its1 its2 pid t :
  Forall (λ it, pid ∉ users it.2) its1 →
  Detach (its1 ++ its2) pid t = Detach its2 pid t.
Proof.
  induction 1 as [|[ns a] its1 Hnot _ IH]; simpl; [done|].
  by rewrite decide_False.
Qed.

Lemma users_last (a : attachment) (pid : uint32) :
  pid ∈ users a → (size (users a ∖ {[pid]}) = 0 ↔ users a = {[pid]}).
Proof.
  intros Hin. rewrite size_empty_iff. split.
  - intros Hempty. apply set_eq. intros x. rewrite elem_of_singleton. split.
    + intros Hx. destruct (decide (x = pid)) as [|Hne]; [done|].
      exfalso. apply (not_elem_of_empty (C:=gset N) x), Hempty.
      apply elem_of_difference. by rewrite elem_of_singleton.
    + by intros ->.
  - intros ->. by rewrite difference_diag.
Qed.

Lemma Detach_first_last ns a its pid t w :
  pid ∈ users a → users a = {[pid]} → loaded a →
  Detach ((ns, a) :: its) pid t w =
    Ret (None, set_attachments (delete ns (attachments t)) t)
        (set_trace (λ tr, tr ++ release_events a) w).
Proof.
  intros Hin Hlast Hload. simpl. rewrite decide_True by done.
  rewrite decide_True by (simpl; by apply users_last).
  munfold. rewrite releaseAttachment_loaded by done.
  simpl. by rewrite delete_insert_eq.
Qed.

Lemma Detach_first_more ns a its pid t w :
  pid ∈ users a → users a ≠ {[pid]} →
  Detach ((ns, a) :: its) pid t w =
    Ret (None, set_attachments (<[ns := set_users (users a ∖ {[pid]}) a]> (attachments t)) t) w.
Proof.
  intros Hin Hmore. simpl. rewrite decide_True by done.
  rewrite decide_False by (simpl; by rewrite users_last).
  done.
Qed.

Lemma range_of_lookup t its ns a :
  range_of t its → (ns, a) ∈ its → attachments t !! ns = Some a.
Proof. unfold range_of. intros Hperm Hin. rewrite Hperm in Hin. by apply elem_of_map_to_list. Qed.

Lemma Detach_not_listed t its pid w :
  range_of t its →
  (∀ ns a, attachments t !! ns = Some a → pid ∉ users a) →
  Detach its pid t w = Ret (Some (ErrNew ("pid " +:+ fmt_d pid +:+ " is not attached")), t) w.
Proof.
  intros Hrange Hnot.
  rewrite <- (app_nil_r its), Detach_skip; [done|].
  apply Forall_forall. intros [ns a] Hin. simpl.
  eapply Hnot, range_of_lookup; done.
Qed.

(** C7: Detach of a pid that no attachment lists returns the not-attached
    error and changes nothing: the tracer (the registry, every attachment's
    users and handles) and the world (no resource touched) are as before. *)
Theorem C7_Detach_not_attached t its pid w :
  range_of t its →
  (∀ ns a, attachments t !! ns = Some a → pid ∉ users a) →
  Detach its pid t w = Ret (Some (ErrNew ("pid " +:+ fmt_d pid +:+ " is not attached")), t) w.
Proof.
  intros Hrange Hnot.
  assert (Forall (λ it, pid ∉ users it.2) its) as Hall.
  { apply Forall_forall. intros [ns a] Hin. cbn.
    apply (Hnot ns a). by apply (range_of_lookup t its). }
  clear Hrange Hnot. induction Hall as [|[ns a] its Hhead _ IH]; cbn.
  - done.
  - rewrite decide_False by done. exact IH.
Qed.

(** C3: let [(ns, a)] be the first attachment, in the order of [range], that
    lists [pid].  If [pid] is its last user, Detach closes the reader, the raw
    socket and the collection, in that order, removes [ns] from the registry
    and returns nil.  Otherwise it only removes [pid] from the users: nothing
    is released (the world is unchanged) and [ns] stays registered. *)
Theorem C3_Detach_release t its pre post ns a pid w :
  range_of t its →
  its = pre ++ (ns, a) :: post →
  Forall (λ it, pid ∉ users it.2) pre →
  pid ∈ users a →
  loaded a →
  (users a = {[pid]} →
     ∃ rd c, perfRd a = Some rd ∧ collection a = Some c ∧
     Detach its pid t w =
       Ret (None, set_attachments (delete ns (attachments t)) t)
           (set_trace (λ tr, tr ++ [EvReaderClose rd; EvUnixClose (sockFd a);
                                    EvCollectionClose c]) w))
  ∧ (users a ≠ {[pid]} →
     Detach its pid t w =
       Ret (None, set_attachments (<[ns := set_users (users a ∖ {[pid]}) a]> (attachments t)) t) w
     ∧ <[ns := set_users (users a ∖ {[pid]}) a]> (attachments t) !! ns
         = Some (set_users (users a ∖ {[pid]}) a)
     ∧ users a ∖ {[pid]} ≠ ∅).
Proof.
  intros _ -> Hpre Hin Hload. split.
  - intros Hlast. destruct Hload as [[rd Hrd] [c Hc]]. exists rd, c.
    split; [done|]. split; [done|].
    rewrite Detach_skip by done.
    rewrite Detach_first_last by (done || by split; eexists).
    unfold release_events. by rewrite Hrd, Hc.
  - intros Hmore. rewrite Detach_skip by done.
    rewrite Detach_first_more by done.
    split; [done|]. split; [by rewrite lookup_insert_eq|].
    intros Hempty. apply Hmore, users_last; [done|]. by rewrite Hempty.
Qed.

(** C10: when several attachments list [pid], one Detach takes [pid] out of
    one of them only, the first that [range] finds, and returns nil.  That
    attachment keeps its handles and its other users, and nothing is
    released, unless [pid] was its only user: then it is released and its
    entry deleted.  Every other registry entry, hence the membership of [pid]
    there, is as it was, and so are the other fields of the tracer. *)
Theorem C10_Detach_first_found t its pre post ns a pid w :
  range_of t its →
  its = pre ++ (ns, a) :: post →
  Forall (λ it, pid ∉ users it.2) pre →
  pid ∈ users a →
  loaded a →
  ∃ t' w',
    Detach its pid t w = Ret (None, t') w'
    ∧ t' = set_attachments (attachments t') t
    ∧ attachments t' !! ns
        = (if decide (users a = {[pid]}) then None
           else Some (set_users (users a ∖ {[pid]}) a))
    ∧ w' = (if decide (users a = {[pid]})
            then set_trace (λ tr, tr ++ release_events a) w else w)
    ∧ (∀ a', attachments t' !! ns = Some a' → users a' = users a ∖ {[pid]})
    ∧ (∀ pid', pid' ≠ pid → pid' ∈ users a →
         ∃ a', attachments t' !! ns = Some a' ∧ pid' ∈ users a' ∧ pid ∉ users a')
    ∧ (∀ ns', ns' ≠ ns → attachments t' !! ns' = attachments t !! ns')
    ∧ (∀ ns' b, ns' ≠ ns → attachments t !! ns' = Some b → pid ∈ users b →
         ∃ b', attachments t' !! ns' = Some b' ∧ pid ∈ users b').
Proof.
  intros _ -> Hpre Hin Hload. rewrite Detach_skip by done.
  destruct (decide (users a = {[pid]})) as [Hlast|Hmore].
  - rewrite Detach_first_last by done. eexists _, _. split; [done|]. simpl.
    split; [done|]. split; [by rewrite lookup_delete_eq|]. split; [done|].
    split; [intros a'; by rewrite lookup_delete_eq|].
    split.
    { intros pid' Hne Hin'. rewrite Hlast in Hin'. by apply elem_of_singleton in Hin'. }
    split; [intros ns' Hne; by rewrite lookup_delete_ne|].
    intros ns' b Hne Hb Hpid. exists b. by rewrite lookup_delete_ne.
  - rewrite Detach_first_more by done. eexists _, _. split; [done|]. simpl.
    split; [done|]. split; [by rewrite lookup_insert_eq|]. split; [done|].
    split; [intros a'; rewrite lookup_insert_eq; by intros [= <-]|].
    split.
    { intros pid' Hne Hin'. eexists. split; [by rewrite lookup_insert_eq|]. simpl.
      rewrite !elem_of_difference, !elem_of_singleton. intuition congruence. }
    split; [intros ns' Hne; by rewrite lookup_insert_ne|].
    intros ns' b Hne Hb Hpid. exists b. by rewrite lookup_insert_ne.
Qed.

End Registry.

(** * The socket enricher *)

Lemma world_eq (w w' : World) :
  w_specs w = w_specs w' → w_chans w = w_chans w' → w_trace w = w_trace w' → w = w'.
Proof. destruct w, w'. simpl. by intros -> -> ->. Qed.

Lemma new_events_app (w w' : World) (evs : list kevent) :
  w_trace w' = w_trace w ++ evs → new_events w w' = evs.
Proof. unfold new_events. intros ->. by rewrite drop_app_length. Qed.

Section Enricher.
Implicit Types (se : SE.SocketEnricher) (e : SE.StartEnv).

Lemma CloseLinks_spec (ls : list Link) w :
  SE.CloseLinks ls w = Ret tt (set_trace (λ tr, tr ++ (EvLinkClose <$> ls)) w).
Proof.
  revert w. induction ls as [|l ls IH]; intros w; simpl.
  - munfold. f_equal. apply world_eq; simpl; [done..|]. by rewrite app_nil_r.
  - munfold. simpl. rewrite IH. f_equal. apply world_eq; simpl; [done..|].
    by rewrite <- app_assoc.
Qed.

(** The first [Close] of a service whose channel is open. *)
Lemma Close_first se c w :
  SE.closeOnce se = false → SE.done se = Some c → w_chans w !! c = Some false →
  SE.Close se w =
    Ret (SE.set_links [] (SE.set_closeOnce true se))
        (set_trace (λ tr, tr ++ [EvChanClose c] ++ (EvLinkClose <$> SE.links se)
                             ++ [EvObjsClose (SE.objs se)])
                   (set_chans <[c:=true]> w)).
Proof.
  intros Honce Hdone Hc. unfold SE.Close, SE.Once_Do. rewrite Honce, Hdone.
  munfold. simpl. unfold close_chan. rewrite Hc. simpl.
  rewrite CloseLinks_spec. simpl. f_equal.
  apply world_eq; simpl; [done..|]. by rewrite <- !app_assoc.
Qed.

(** A [Close] without a channel to close: after a failed [start]. *)
Lemma Close_unstarted se w :
  SE.done se = None →
  SE.Close se w =
    Ret (SE.set_links [] (if SE.closeOnce se then se else SE.set_closeOnce true se))
        (set_trace (λ tr, tr ++ (EvLinkClose <$> SE.links se) ++ [EvObjsClose (SE.objs se)]) w).
Proof.
  intros Hdone. unfold SE.Close, SE.Once_Do. rewrite Hdone.
  destruct (SE.closeOnce se) eqn:Honce; munfold; simpl;
    rewrite CloseLinks_spec; simpl; f_equal;
    apply world_eq; simpl; try done; by rewrite <- !app_assoc.
Qed.

(** Any later [Close]: the once-guard is spent and the links are gone. *)
Lemma Close_again se w :
  SE.closeOnce se = true → SE.links se = [] →
  SE.Close se w = Ret se (set_trace (λ tr, tr ++ [EvObjsClose (SE.objs se)]) w).
Proof.
  intros Honce Hlinks. unfold SE.Close, SE.Once_Do. rewrite Honce.
  munfold. simpl. rewrite Hlinks. simpl. munfold. simpl.
  destruct se as [o ls once d]. simpl in *. by subst.
Qed.

Lemma Close_times_again n se w :
  SE.closeOnce se = true → SE.links se = [] →
  SE.Close_times n se w =
    Ret se (set_trace (λ tr, tr ++ replicate n (EvObjsClose (SE.objs se))) w).
Proof.
  intros Honce Hlinks. revert w. induction n as [|n IH]; intros w; simpl.
  - munfold. f_equal. apply world_eq; simpl; [done..|]. by rewrite app_nil_r.
  - munfold. rewrite Close_again by done. rewrite IH. f_equal.
    apply world_eq; simpl; [done..|]. by rewrite <- app_assoc.
Qed.

Lemma attach_probes_spec e ps se w :
  ∃ se' err w',
    SE.attach_probes e ps se w = Ret (se', err) w'
    ∧ SE.objs se' = SE.objs se ∧ SE.closeOnce se' = SE.closeOnce se
    ∧ SE.done se' = SE.done se ∧ w_chans w' = w_chans w
    ∧ (err = None →
       SE.links se' = SE.links se ++ ((λ p, (SE.attach_probe e (SE.objs se) p).1) <$> ps)).
Proof.
  revert se w. induction ps as [|p ps IH]; intros se w; simpl.
  - eexists se, None, w. munfold. repeat split; try done. by rewrite app_nil_r.
  - destruct (SE.attach_probe e (SE.objs se) p) as [l [err|]] eqn:Hp.
    + eexists se, _, w. munfold. by repeat split.
    + munfold. simpl.
      destruct (IH (SE.set_links (SE.links se ++ [l]) se)
                   (set_trace (λ tr, tr ++ [EvLinkAttach l]) w))
        as (se' & err & w' & -> & Ho & Honce & Hd & Hc & Hl).
      eexists se', err, w'. repeat split; try done.
      intros ->. rewrite Hl by done. simpl. by rewrite <- app_assoc.
Qed.

Lemma start_cleanup_spec e se w :
  ∃ se' err w',
    SE.start_cleanup e se w = Ret (se', err) w'
    ∧ SE.closeOnce se' = SE.closeOnce se ∧ SE.objs se' = SE.objs se
    ∧ (is_Some err → SE.done se' = SE.done se)
    ∧ (err = None →
       SE.links se' = SE.links se
                        ++ [(SE.r_AttachIter e (objs_Programs (SE.objs se) !! "IgSkCleanup")
                               (Sockets (SE.objs se))).1]
       ∧ ∃ c, SE.done se' = Some c ∧ w_chans w' !! c = Some false).
Proof.
  unfold SE.start_cleanup.
  destruct (SE.r_AttachIter e _ _) as [cleanupIter [err|]]; munfold; simpl.
  - eexists _, _, _. split; [done|]. repeat split; done.
  - unfold make_chan. simpl. eexists _, _, _. split; [done|]. simpl.
    repeat split; try done.
    eexists. split; [done|]. by rewrite lookup_insert_eq.
Qed.

Lemma start_spec e se0 w :
  SE.done se0 = None →
  ∃ se err w',
    SE.start e se0 w = Ret (se, err) w'
    ∧ SE.closeOnce se = SE.closeOnce se0
    ∧ (is_Some err → SE.done se = None)
    ∧ (err = None →
       SE.links se = SE.links se0 ++ started_links e
       ∧ SE.objs se = (SE.r_LoadAndAssign e).1
       ∧ ∃ c, SE.done se = Some c ∧ w_chans w' !! c = Some false).
Proof.
  intros Hdone. unfold SE.start, started_links.
  destruct (SE.r_loadSocketenricher e) as [err|].
  { eexists _, _, _. split; [done|]. repeat split; done. }
  destruct (SE.r_LoadAndAssign e) as [o [err|]].
  { eexists _, _, _. split; [done|]. repeat split; done. }
  munfold. cbn -[SE.attach_probes SE.probes].
  destruct (attach_probes_spec e SE.probes (SE.set_objs o se0)
              (set_trace (λ tr, tr ++ [EvLoadAndAssign o]) w))
    as (se1 & err1 & w1 & -> & Ho & Honce & Hd & Hc & Hl).
  simpl in Ho, Honce, Hd. rewrite Ho.
  destruct err1 as [err1|].
  { eexists _, _, _. split; [done|]. repeat split; done || congruence. }
  destruct (SE.r_AttachIter e (objs_Programs o !! "IgSocketsIt") None) as [socketsIter [err|]].
  { eexists _, _, _. split; [done|]. repeat split; done || congruence. }
  simpl. destruct (SE.r_IterOpen e socketsIter) as [file [err|]]; simpl.
  { eexists _, _, _. split; [done|]. repeat split; done || congruence. }
  destruct (SE.r_ReadAll e file) as [err|]; simpl.
  { eexists _, _, _. split; [done|]. repeat split; done || congruence. }
  match goal with |- context [SE.start_cleanup e se1 ?w2] =>
    destruct (start_cleanup_spec e se1 w2) as (se2 & err2 & w3 & -> & Honce2 & Ho2 & Hd2 & Hok)
  end.
  eexists _, _, _. split; [done|]. simpl.
  split; [congruence|]. split.
  - intros Herr. rewrite Hd2 by done. congruence.
  - intros ->. destruct Hok as (Hl2 & c & Hc2 & Hopen); [done|].
    rewrite Hl2, Hl, Ho by done. simpl.
    split; [by rewrite <- app_assoc|]. split; [congruence|].
    exists c. by split.
Qed.

(** [NewSocketEnricher] never panics; what it returns when [start] went
    through. *)
Lemma NewSocketEnricher_spec e w :
  ∃ r w',
    SE.NewSocketEnricher e w = Ret r w'
    ∧ match r with
      | (Some se, None) =>
        SE.closeOnce se = false ∧ SE.links se = started_links e
        ∧ SE.objs se = (SE.r_LoadAndAssign e).1
        ∧ ∃ c, SE.done se = Some c ∧ w_chans w' !! c = Some false
      | (None, Some _) => True
      | _ => False
      end.
Proof.
  unfold SE.NewSocketEnricher. munfold.
  match goal with |- context [SE.start e ?se0 w] =>
    destruct (start_spec e se0 w) as (se & err & w1 & -> & Honce & Hfail & Hok); [done|]
  end.
  destruct err as [err|].
  - rewrite Close_unstarted by (by apply Hfail). eexists _, _. by split.
  - eexists _, _. split; [done|]. simpl. by destruct Hok as (? & ? & ?).
Qed.

End Enricher.

Example ex_started :
  SE.NewSocketEnricher ex_start_env empty_world = Ret (Some ex_se, None) ex_started_world.
Proof. vm_compute. reflexivity. Qed.

Lemma Close_times_started se c w n :
  SE.closeOnce se = false → SE.done se = Some c → w_chans w !! c = Some false →
  SE.Close_times (S n) se w =
    Ret (SE.set_links [] (SE.set_closeOnce true se))
        (set_trace (λ tr, tr ++ [EvChanClose c] ++ (EvLinkClose <$> SE.links se)
                             ++ replicate (S n) (EvObjsClose (SE.objs se)))
                   (set_chans <[c:=true]> w)).
Proof.
  intros Honce Hdone Hopen. cbn [SE.Close_times]. munfold.
  rewrite (Close_first se c w) by done.
  rewrite Close_times_again by done. f_equal.
  apply world_eq; [done..|]. unfold set_trace. cbn [w_trace SE.objs SE.set_links SE.set_closeOnce].
  rewrite <- !app_assoc. do 3 f_equal.
Qed.

Lemma no_ChanClose_links (ls : list Link) : filter is_ChanClose (EvLinkClose <$> ls) = [].
Proof. induction ls; done. Qed.

Lemma no_ChanClose_objs (k : nat) (o : socketenricherObjects) :
  filter is_ChanClose (replicate k (EvObjsClose o)) = [].
Proof. induction k; done. Qed.

Lemma performed_from_app (idempotent : bool) (closed : list socketenricherObjects)
    (evs1 evs2 : list kevent) :
  filter is_ObjsClose evs1 = [] →
  performed_from idempotent closed (evs1 ++ evs2)
    = evs1 ++ performed_from idempotent closed evs2.
Proof.
  induction evs1 as [|ev evs1 IH]; [done|].
  destruct ev; cbn; try done; intros Hno; by rewrite IH.
Qed.

Lemma performed_from_every_call (closed : list socketenricherObjects) (evs : list kevent) :
  performed_from false closed evs = evs.
Proof.
  revert closed. induction evs as [|ev evs IH]; intros closed; [done|].
  destruct ev; cbn; by rewrite IH.
Qed.

Lemma performed_from_closed (closed : list socketenricherObjects) (o : socketenricherObjects)
    (k : nat) :
  o ∈ closed → performed_from true closed (replicate k (EvObjsClose o)) = [].
Proof.
  intros Hin. induction k as [|k IH]; [done|].
  cbn. by rewrite bool_decide_eq_true_2.
Qed.

Lemma no_ObjsClose_links (ls : list Link) : filter is_ObjsClose (EvLinkClose <$> ls) = [].
Proof. induction ls; done. Qed.

(** C9: on a started service, any number [S n] of [Close] calls closes the
    [done] channel once (and does not panic) and closes every link once, in
    the order [start] attached them.  [se.objs.Close()] is called at the end
    of every [Close], [S n] times in all, the first time right after the
    links.  With a generated [Close] that does nothing on closed objects
    ([idempotent = true]) the releases performed are the shutdown signal, the
    links in order, then the program and map set, each once; with one that
    releases again, every call counts. *)
Theorem C9_Close_repeated e w0 se w n (idempotent : bool) :
  SE.NewSocketEnricher e w0 = Ret (Some se, None) w →
  ∃ c se' w',
    SE.done se = Some c ∧ SE.links se = started_links e
    ∧ SE.Close_times (S n) se w = Ret se' w'
    ∧ new_events w w'
        = [EvChanClose c] ++ (EvLinkClose <$> started_links e)
            ++ replicate (S n) (EvObjsClose (SE.objs se))
    ∧ length (filter is_ChanClose (new_events w w')) = 1
    ∧ SE.links se' = [] ∧ SE.closeOnce se' = true ∧ w_chans w' !! c = Some true
    ∧ performed idempotent (new_events w w')
        = [EvChanClose c] ++ (EvLinkClose <$> started_links e)
            ++ (if idempotent then [EvObjsClose (SE.objs se)]
                else replicate (S n) (EvObjsClose (SE.objs se))).
Proof.
  intros Hnew.
  destruct (NewSocketEnricher_spec e w0) as (r & w1 & Hrun & Hr).
  rewrite Hnew in Hrun. injection Hrun as <- <-.
  destruct Hr as (Honce & Hlinks & Hobjs & c & Hdone & Hopen).
  rewrite <- Hlinks. clear Hlinks Hobjs Hnew.
  eexists c, _, _. split; [done|]. split; [done|].
  split; [by apply Close_times_started|].
  erewrite new_events_app by (unfold set_trace; cbn [w_trace set_chans]; reflexivity).
  split; [done|]. split.
  { change ([EvChanClose c] ++ ?l) with (EvChanClose c :: l).
    rewrite filter_cons_True by done.
    by rewrite filter_app, no_ChanClose_links, no_ChanClose_objs. }
  split; [done|]. split; [done|]. split; [cbn; by rewrite lookup_insert_eq|].
  unfold performed. destruct idempotent.
  - rewrite (performed_from_app true [] [EvChanClose c]) by done.
    rewrite performed_from_app by apply no_ObjsClose_links.
    do 2 f_equal. cbn [replicate performed_from andb].
    rewrite bool_decide_eq_false_2 by apply not_elem_of_nil.
    f_equal. apply performed_from_closed. by left.
  - apply performed_from_every_call.
Qed.

(** The witness of C9: the example service, closed three times, with a
    generated [Close] that does nothing on closed objects. *)
Lemma C9_Close_repeated_witness :
  SE.NewSocketEnricher ex_start_env empty_world = Ret (Some ex_se, None) ex_started_world
  ∧ ∃ c se' w',
      SE.done ex_se = Some c ∧ SE.links ex_se = started_links ex_start_env
      ∧ SE.Close_times 3 ex_se ex_started_world = Ret se' w'
      ∧ new_events ex_started_world w'
          = [EvChanClose c] ++ (EvLinkClose <$> started_links ex_start_env)
              ++ replicate 3 (EvObjsClose (SE.objs ex_se))
      ∧ length (filter is_ChanClose (new_events ex_started_world w')) = 1
      ∧ SE.links se' = [] ∧ SE.closeOnce se' = true ∧ w_chans w' !! c = Some true
      ∧ performed true (new_events ex_started_world w')
          = [EvChanClose c] ++ (EvLinkClose <$> started_links ex_start_env)
              ++ [EvObjsClose (SE.objs ex_se)].
Proof.
  split.
  - vm_compute. reflexivity.
  - apply (C9_Close_repeated ex_start_env empty_world ex_se ex_started_world 2 true).
    vm_compute. reflexivity.
Defined.

(** The same three calls, evaluated: one signal, the thirteen links in the
    order of their attachment, and the objects closed by the first call. *)
Example Close_three_times :
  ∃ se' w',
    SE.Close_times 3 ex_se ex_started_world = Ret se' w'
    ∧ performed true (new_events ex_started_world w')
        = [EvChanClose 0%N]
            ++ (EvLinkClose <$> [1; 2; 3; 4; 5; 6; 7; 8; 9; 10; 11; 12; 13]%N)
            ++ [EvObjsClose ex_objs]
    ∧ length (performed false (new_events ex_started_world w')) = 17.
Proof. eexists _, _. split; [vm_compute; reflexivity|]. split; by vm_compute. Qed.

(** * NewTracer *)

Section NewTracer.
Context {Event : Type}.

Lemma NewTracer_range_spec (e : NewTracerEnv) (ms : list (string * MapSpec)) w :
  ∃ se w',
    NewTracer_range e ms w = Ret se w'
    ∧ (¬ Exists (λ km, ms_Name km.2 = SocketsMapName) ms → se = None ∧ w' = w)
    ∧ (Exists (λ km, ms_Name km.2 = SocketsMapName) ms →
       ∃ r w2,
         SE.NewSocketEnricher (r_start e) w = Ret r w2
         ∧ se = r.1
         ∧ (is_Some r.2 → se = None)
         ∧ w' = set_trace
                  (λ tr, tr ++ match r.2 with
                               | Some err => [EvLog ("creating socket enricher: " +:+ Error err)]
                               | None => []
                               end) w2).
Proof.
  induction ms as [|[k m] ms IH]; simpl.
  - eexists None, w. split; [done|]. split; [done|]. by intros ?%Exists_nil.
  - destruct (decide (ms_Name m = SocketsMapName)) as [Hname|Hname].
    + destruct (NewSocketEnricher_spec (r_start e) w) as ([se err] & w2 & Hrun & Hr).
      munfold. rewrite Hrun. simpl.
      destruct err as [err|]; simpl.
      * eexists _, _. split; [done|]. split.
        { intros []. by left. }
        intros _. eexists _, _. split; [done|]. simpl.
        destruct se; [done|]. by repeat split.
      * eexists _, _. split; [done|]. split.
        { intros []. by left. }
        intros _. eexists _, _. split; [done|]. simpl.
        repeat split; [by intros [? [=]]|].
        apply world_eq; simpl; [done..|]. by rewrite app_nil_r.
    + destruct IH as (se & w' & -> & Hno & Hyes).
      eexists _, _. split; [done|]. split.
      * intros Hex. apply Hno. intros ?. apply Hex. by right.
      * intros [?|?]%Exists_cons; [done|]. by apply Hyes.
Qed.

(** C4, as amended: [NewTracer] never returns an error.  It constructs the
    enrichment service only when the spec declares a map named "sockets"; when
    that construction fails the error is logged, the tracer is returned all
    the same, with a nil [socketEnricher].  Without such a map no service is
    constructed and nothing is logged. *)
Theorem C4_NewTracer_enricher_failure (e : NewTracerEnv) (spec : specptr)
    (bpfProgName bpfPerfMapName : string) (bpfSocketAttach : Z)
    (baseEvent : types_Event → option Event)
    (processEvent : list N → uint64 → option Event * option error)
    (cs : CollectionSpec) (w : World) :
  w_specs w !! spec = Some cs →
  let w1 := set_specs <[spec := fixed_spec e cs]> w in
  ∃ t w',
    NewTracer e spec bpfProgName bpfPerfMapName bpfSocketAttach baseEvent processEvent w
      = Ret (Some t, None) w'
    ∧ attachments t = ∅
    ∧ (¬ declares_sockets cs → socketEnricher t = None ∧ w' = w1)
    ∧ (declares_sockets cs →
       ∃ r w2,
         SE.NewSocketEnricher (r_start e) w1 = Ret r w2
         ∧ socketEnricher t = r.1
         ∧ (is_Some r.2 → socketEnricher t = None)
         ∧ w' = set_trace
                  (λ tr, tr ++ match r.2 with
                               | Some err => [EvLog ("creating socket enricher: " +:+ Error err)]
                               | None => []
                               end) w2).
Proof.
  intros Hcs w1. unfold NewTracer. munfold. unfold spec_load, spec_store.
  rewrite Hcs. cbn -[NewTracer_range].
  destruct (NewTracer_range_spec e (cs_Maps cs) w1) as (se & w' & Hrun & Hno & Hyes).
  fold (fixed_spec e cs). fold w1. rewrite Hrun.
  eexists _, _. split; [done|]. simpl. split; [done|]. split; [exact Hno|exact Hyes].
Qed.

End NewTracer.

(** The witness of C4: the example spec on a kernel without BTF. *)
Lemma C4_NewTracer_enricher_failure_witness :
  w_specs ex_world !! 1%N = Some ex_spec
  ∧ ∃ t w',
      NewTracer (ex_newtracer_env ex_start_env_nobtf) 1%N "ig_trace_dns" "events" 50%Z
        ex_baseEvent ex_processEvent ex_world = Ret (Some t, None) w'
      ∧ socketEnricher t = None
      ∧ new_events ex_world w'
          = [EvObjsClose {| Sockets := None; objs_Programs := ∅ |};
             EvLog "creating socket enricher: loading asset: BTF not found"].
Proof.
  split; [reflexivity|].
  destruct (C4_NewTracer_enricher_failure (ex_newtracer_env ex_start_env_nobtf) 1%N
              "ig_trace_dns" "events" 50%Z ex_baseEvent ex_processEvent ex_spec ex_world
              eq_refl) as (t & w' & Hrun & _ & _ & Hyes).
  exists t, w'. split; [exact Hrun|].
  destruct Hyes as (r & w2 & Hse & Ht & Hnone & Hw').
  { unfold declares_sockets. simpl. right. by left. }
  vm_compute in Hse. injection Hse as <- <-.
  split; [exact Ht|]. rewrite Hw'. reflexivity.
Defined.

(** The counterexample to C4 as stated: the example spec declares "sockets",
    the service cannot be constructed, and [NewTracer] returns no error. *)
Lemma C4_counterexample :
  ¬ C4_as_stated (ex_newtracer_env ex_start_env_nobtf) 1%N "ig_trace_dns" "events" 50%Z
      ex_baseEvent ex_processEvent ex_world.
Proof.
  intros Hclaim.
  destruct (Hclaim ex_spec eq_refl) as (t & err & w' & Hrun).
  - unfold declares_sockets. simpl. right. by left.
  - intros w1. eexists _, _. reflexivity.
  - vm_compute in Hrun. discriminate Hrun.
Qed.

(** * Construction of an attachment, and its rollback *)

Ltac unfold_newAttachment :=
  unfold newAttachment, newAttachment_body, newAttachment_opts, rollback,
    spec_RewriteConstants, spec_Copy, spec_alloc, spec_load, spec_store;
  munfold.

Section Construction.
Implicit Types (e : AttachEnv) (se : option SE.SocketEnricher) (cs : CollectionSpec).

Ltac destruct_answers :=
  repeat match goal with
  | _ => rewrite lookup_insert_eq
  | _ => rewrite insert_insert_eq
  | _ => progress cbn
  | |- context [r_RewriteConstants ?e ?consts ?cs] =>
    destruct (r_RewriteConstants e consts cs) as [? [?|]] eqn:?
  | |- context [r_NewCollectionWithOptions ?e ?cs ?opts] =>
    destruct (r_NewCollectionWithOptions e cs opts) as [[?|] [?|]] eqn:?
  | |- context [r_NewReader ?e ?m ?n] =>
    destruct (r_NewReader e m n) as [[?|] [?|]] eqn:?
  | |- context [coll_Programs ?c !! ?pn] =>
    destruct (coll_Programs c !! pn) as [?|] eqn:?
  | |- context [r_OpenRawSock ?e ?pid] =>
    destruct (r_OpenRawSock e pid) as [? [?|]] eqn:?
  | |- context [r_SetsockoptInt ?e ?fd ?opt ?prog] =>
    destruct (r_SetsockoptInt e fd opt prog) as [?|] eqn:?
  | |- context [decide (?fd = (-1)%Z)] =>
    destruct (decide (fd = (-1)%Z))
  end.

(** What the body of [newAttachment] does, whatever the kernel answers: the
    events so far are the acquisitions of the handles that [a] holds. *)
Lemma newAttachment_body_spec e pid netns se l pn pm opt w cs :
  w_specs w !! l = Some cs →
  let cs' := loaded_spec e netns se cs in
  match newAttachment_body e pid netns se l pn pm opt w with
  | Panic _ =>
    rewrite_error e netns se cs = None
    ∧ r_NewCollectionWithOptions e cs' (map_replacements se) = (None, None)
  | Ret (a, oerr) w' =>
    w_specs w' = <[fresh (dom (w_specs w)) := cs']> (w_specs w)
    ∧ w_chans w' = w_chans w
    ∧ users a = {[ pid ]}
    ∧ match oerr with
      | Some err =>
        w_trace w' = w_trace w ++ acquired (collection a) (perfRd a) pid (sockFd a)
      | None =>
        ∃ c prog,
          collection a = Some c
          ∧ constructs e pid netns se cs pn pm opt c (perfRd a) (sockFd a) prog
          ∧ w_trace w' = w_trace w ++ acquired (collection a) (perfRd a) pid (sockFd a)
                           ++ [EvSetsockopt (sockFd a) opt prog]
      end
  end.
Proof.
  intros Hcs. unfold_newAttachment.
  unfold constructs, loaded_spec, rewrite_error, map_replacements, acquired.
  rewrite Hcs. cbn.
  destruct se as [se|]; destruct_answers.
  all: repeat split; rewrite <- ?app_assoc, ?app_nil_r; try done.
  all: try (eexists _, _; repeat split; rewrite <- ?app_assoc, ?app_nil_r; done).
Qed.

Lemma rollback_spec (a : attachment) w :
  rollback a w = Ret tt (set_trace (λ tr, tr ++ released (perfRd a) (sockFd a) (collection a)) w).
Proof.
  unfold rollback, released. munfold.
  destruct (perfRd a), (decide (sockFd a = (-1)%Z)), (collection a); cbn; f_equal;
    apply world_eq; cbn; rewrite <- ?app_assoc, ?app_nil_r; done.
Qed.

(** What [newAttachment] does, whatever the kernel answers. *)
Lemma newAttachment_spec e pid netns se l pn pm opt w cs :
  w_specs w !! l = Some cs →
  let cs' := loaded_spec e netns se cs in
  match newAttachment e pid netns se l pn pm opt w with
  | Panic _ =>
    rewrite_error e netns se cs = None
    ∧ r_NewCollectionWithOptions e cs' (map_replacements se) = (None, None)
  | Ret (oa, oerr) w' =>
    w_specs w' = <[fresh (dom (w_specs w)) := cs']> (w_specs w)
    ∧ w_chans w' = w_chans w
    ∧ match oerr with
      | Some err =>
        oa = None
        ∧ ∃ c rd fd, w_trace w' = w_trace w ++ acquired c rd pid fd ++ released rd fd c
      | None =>
        ∃ c rd fd prog,
          oa = Some {| collection := Some c; perfRd := rd; sockFd := fd; users := {[ pid ]} |}
          ∧ constructs e pid netns se cs pn pm opt c rd fd prog
          ∧ w_trace w' = w_trace w ++ acquired (Some c) rd pid fd ++ [EvSetsockopt fd opt prog]
      end
  end.
Proof.
  intros Hcs cs'. pose proof (newAttachment_body_spec e pid netns se l pn pm opt w cs Hcs) as Hbody.
  unfold newAttachment. munfold. cbv zeta in Hbody. fold cs' in Hbody.
  destruct (newAttachment_body e pid netns se l pn pm opt w) as [[a oerr] w1|msg]; [|done].
  destruct Hbody as (Hspecs & Hchans & Husers & Htrace).
  destruct oerr as [err|].
  - rewrite rollback_spec. cbn. split; [done|]. split; [done|]. split; [done|].
    exists (collection a), (perfRd a), (sockFd a). by rewrite Htrace, <- app_assoc.
  - split; [done|]. split; [done|].
    destruct Htrace as (c & prog & Hc & Hok & Htrace).
    exists c, (perfRd a), (sockFd a), prog.
    split; [|split; [done|by rewrite <- Hc]].
    destruct a. cbn in *. by subst.
Qed.

(** The construction when every step succeeds. *)
Lemma newAttachment_constructs e pid netns se l pn pm opt w cs c rd fd prog :
  w_specs w !! l = Some cs →
  constructs e pid netns se cs pn pm opt c rd fd prog →
  newAttachment e pid netns se l pn pm opt w =
    Ret (Some {| collection := Some c; perfRd := rd; sockFd := fd; users := {[ pid ]} |}, None)
        (set_trace (λ tr, tr ++ acquired (Some c) rd pid fd ++ [EvSetsockopt fd opt prog])
           (set_specs <[fresh (dom (w_specs w)) := loaded_spec e netns se cs]> w)).
Proof.
  intros Hcs (Hrw & Hload & Hrd & Hprog & Hsock & Hset).
  unfold_newAttachment.
  unfold loaded_spec, rewrite_error, map_replacements, acquired in *.
  rewrite Hcs. cbn.
  destruct se as [se|]; cbn; rewrite ?lookup_insert_eq; cbn.
  - destruct (r_RewriteConstants e _ cs) as [cs1 oerr]. cbn in Hrw, Hload. subst oerr.
    cbn. rewrite ?lookup_insert_eq, ?insert_insert_eq. cbn.
    rewrite Hload. cbn. rewrite Hrd. destruct rd; cbn; rewrite Hprog, Hsock; cbn;
      destruct (decide (fd = (-1)%Z)); cbn; rewrite Hset; cbn; f_equal;
      apply world_eq; cbn; rewrite <- ?app_assoc, ?insert_insert_eq; done.
  - rewrite Hload. cbn. rewrite Hrd. destruct rd; cbn; rewrite Hprog, Hsock; cbn;
      destruct (decide (fd = (-1)%Z)); cbn; rewrite Hset; cbn; f_equal;
      apply world_eq; cbn; rewrite <- ?app_assoc; done.
Qed.

End Construction.

Section Attach.
Context {Event : Type}.
Implicit Types (t : Tracer Event) (e : AttachEnv).

(** The dedup path of [Attach]. *)
Lemma Attach_existing e pid cb t w netns a :
  r_GetNetNs e pid = (netns, None) →
  attachments t !! netns = Some a →
  Attach e pid cb t w =
    Ret (None, set_attachments (<[netns := set_users ({[ pid ]} ∪ users a) a]> (attachments t)) t) w.
Proof. intros Hns Ha. unfold Attach. by rewrite Hns, Ha. Qed.

(** [Attach] on a namespace without attachment, by what [newAttachment]
    returns. *)
Lemma Attach_new e pid cb t w netns :
  r_GetNetNs e pid = (netns, None) →
  attachments t !! netns = None →
  Attach e pid cb t w =
    match newAttachment e pid netns (socketEnricher t) (spec t)
            (bpfProgName t) (bpfPerfMapName t) (bpfSocketAttach t) w with
    | Ret (_, Some err) w1 =>
      Ret (Some (ErrWrap ("creating network tracer attachment for pid " +:+ fmt_d pid +:+ ": ")
                   err), t) w1
    | Ret (Some a, None) w1 =>
      Ret (None, set_attachments (<[netns := a]> (attachments t)) t)
          (set_trace (λ tr, tr ++ [EvGoListen netns (perfRd a) cb]) w1)
    | Ret (None, None) _ => Panic "invalid memory address or nil pointer dereference"
    | Panic msg => Panic msg
    end.
Proof.
  intros Hns Ha. unfold Attach. rewrite Hns, Ha. munfold.
  destruct (newAttachment _ _ _ _ _ _ _ _ w) as [[[a|] [err|]] w1|msg]; done.
Qed.

(** C2: when the construction of the attachment fails, [Attach] returns that
    error (wrapped with the pid), leaves the tracer as it was, no attachment
    being registered, and the events of the call are the acquisitions of the
    handles obtained before the failure followed by exactly one release of
    each of them, reader first, then raw socket, then collection; a handle
    that was not obtained (nil reader, descriptor -1, nil collection) has
    neither an acquisition nor a release. *)
Theorem C2_Attach_rollback e pid cb t w cs netns oa err w1 :
  w_specs w !! spec t = Some cs →
  r_GetNetNs e pid = (netns, None) →
  attachments t !! netns = None →
  newAttachment e pid netns (socketEnricher t) (spec t)
    (bpfProgName t) (bpfPerfMapName t) (bpfSocketAttach t) w = Ret (oa, Some err) w1 →
  oa = None
  ∧ Attach e pid cb t w =
      Ret (Some (ErrWrap ("creating network tracer attachment for pid " +:+ fmt_d pid +:+ ": ")
                   err), t) w1
  ∧ ∃ c rd fd,
      new_events w w1 = acquired c rd pid fd ++ released rd fd c
      ∧ released rd fd c
          = from_option (λ rd, [EvReaderClose rd]) [] rd
            ++ (if decide (fd = (-1)%Z) then [] else [EvUnixClose fd])
            ++ from_option (λ c, [EvCollectionClose c]) [] c.
Proof.
  intros Hcs Hns Ha Hnew.
  pose proof (newAttachment_spec e pid netns (socketEnricher t) (spec t)
                (bpfProgName t) (bpfPerfMapName t) (bpfSocketAttach t) w cs Hcs) as Hspec.
  cbv zeta in Hspec. rewrite Hnew in Hspec.
  destruct Hspec as (_ & _ & -> & c & rd & fd & Htrace).
  split; [done|]. split.
  - by rewrite (Attach_new e pid cb t w netns), Hnew.
  - exists c, rd, fd. split; [|done]. by apply new_events_app.
Qed.

End Attach.

(** * The program template *)

Section Template.
Implicit Types (e : AttachEnv) (se : option SE.SocketEnricher) (cs : CollectionSpec).

Lemma fresh_spec_lookup (m : gmap N CollectionSpec) (l : specptr) cs cs' :
  m !! l = Some cs → <[fresh (dom m) := cs']> m !! l = Some cs.
Proof.
  intros Hl. rewrite lookup_insert_ne; [done|].
  intros Heq. apply (is_fresh (dom m)). rewrite Heq. apply elem_of_dom. by eexists.
Qed.

(** C8: [newAttachment] works on a private copy of the template.  Whatever
    the kernel answers, once it has returned the template at [l] (and every
    other spec of the heap) has the content it had, with or without the
    rewriting of [current_netns]; an attachment constructed afterwards, for any
    namespace, is therefore loaded from the original template content [cs],
    rewritten for that namespace only.  [newAttachment] does not return only
    when the loader answers a nil collection without an error. *)
Theorem C8_template_unchanged e pid netns se l pn pm opt w cs :
  w_specs w !! l = Some cs →
  match newAttachment e pid netns se l pn pm opt w with
  | Ret r w' =>
    w_specs w' !! l = Some cs
    ∧ (∀ l0 cs0, w_specs w !! l0 = Some cs0 → w_specs w' !! l0 = Some cs0)
    ∧ (∀ e2 pid2 netns2 a2 w2,
         newAttachment e2 pid2 netns2 se l pn pm opt w' = Ret (Some a2, None) w2 →
         ∃ c2, collection a2 = Some c2
               ∧ r_NewCollectionWithOptions e2 (loaded_spec e2 netns2 se cs) (map_replacements se)
                   = (Some c2, None))
  | Panic _ =>
    r_NewCollectionWithOptions e (loaded_spec e netns se cs) (map_replacements se) = (None, None)
  end.
Proof.
  intros Hcs.
  pose proof (newAttachment_spec e pid netns se l pn pm opt w cs Hcs) as Hspec.
  cbv zeta in Hspec.
  destruct (newAttachment e pid netns se l pn pm opt w) as [[oa oerr] w'|msg];
    [|by destruct Hspec].
  destruct Hspec as (Hspecs & _ & _).
  assert (∀ l0 cs0, w_specs w !! l0 = Some cs0 → w_specs w' !! l0 = Some cs0) as Hframe.
  { intros l0 cs0 Hl0. rewrite Hspecs. by apply fresh_spec_lookup. }
  split; [by apply Hframe|]. split; [done|].
  intros e2 pid2 netns2 a2 w2 Hnew2.
  pose proof (newAttachment_spec e2 pid2 netns2 se l pn pm opt w' cs (Hframe _ _ Hcs)) as Hspec2.
  cbv zeta in Hspec2. rewrite Hnew2 in Hspec2.
  destruct Hspec2 as (_ & _ & c2 & rd2 & fd2 & prog2 & [= ->] & Hok & _).
  exists c2. split; [done|]. by destruct Hok as (_ & Hload & _).
Qed.

End Template.

(** * One attachment per network namespace *)

Section Sharing.
Context {Event : Type}.
Implicit Types (t : Tracer Event) (e : AttachEnv) (h : list (call * option error)).



(** The first attachment that lists [pid], if any. *)
Lemma first_listing (its : list (uint64 * attachment)) (pid : uint32) :
  Forall (λ it, pid ∉ users it.2) its
  ∨ ∃ pre netns a post,
      its = pre ++ (netns, a) :: post
      ∧ Forall (λ it, pid ∉ users it.2) pre ∧ pid ∈ users a.
Proof.
  induction its as [|[netns a] its IH]; [by left|].
  destruct (decide (pid ∈ users a)) as [Hin|Hnot].
  - right. by exists [], netns, a, its.
  - destruct IH as [Hall|(pre & netns' & a' & post & -> & Hpre & Hin)].
    + left. by constructor.
    + right. exists ((netns, a) :: pre), netns', a', post. split; [done|].
      split; [by constructor|done].
Qed.










End Sharing.

(** * Examples and witnesses *)

(** Closed decidable facts, by evaluation. *)
Ltac by_compute := apply (bool_decide_unpack _); vm_compute; exact I.

(** Evaluation of a call on closed arguments. *)
Ltac run_call :=
  match goal with
  | |- ?call = _ => let v := eval vm_compute in call in change call with v; reflexivity
  end.

Lemma ex_range_of : range_of ex_tracer2 ex_range.
Proof. unfold range_of. by vm_compute. Qed.

Lemma ex_range_of_swapped : range_of ex_tracer2 (reverse ex_range).
Proof. unfold range_of. rewrite <- ex_range_of. apply reverse_Permutation. Qed.

Lemma C7_Detach_not_attached_witness :
  range_of ex_tracer2 ex_range
  ∧ (∀ ns a, attachments ex_tracer2 !! ns = Some a → 300%N ∉ users a)
  ∧ Detach ex_range 300%N ex_tracer2 ex_world
      = Ret (Some (ErrNew "pid 300 is not attached"), ex_tracer2) ex_world.
Proof.
  assert (∀ ns a, attachments ex_tracer2 !! ns = Some a → 300%N ∉ users a) as Hnone.
  { apply (proj1 (map_Forall_lookup (λ _ a, 300%N ∉ users a) (attachments ex_tracer2))). by_compute. }
  split; [exact ex_range_of|]. split; [exact Hnone|].
  exact (C7_Detach_not_attached ex_tracer2 ex_range 300%N ex_world ex_range_of Hnone).
Defined.

Lemma ex_att1_loaded : loaded ex_att1.
Proof. split; eexists; reflexivity. Qed.
Lemma ex_att2_loaded : loaded ex_att2.
Proof. split; eexists; reflexivity. Qed.

Lemma C3_Detach_release_witness :
  (range_of ex_tracer2 ex_range
   ∧ 10%N ∈ users ex_att1 ∧ users ex_att1 = {[ 10%N ]} ∧ loaded ex_att1
   ∧ Detach ex_range 10%N ex_tracer2 ex_world
       = Ret (None, set_attachments (delete 4026531992%N (attachments ex_tracer2)) ex_tracer2)
             (set_trace (λ tr, tr ++ [EvReaderClose 70%N; EvUnixClose 9%Z;
                                      EvCollectionClose ex_coll1]) ex_world))
  ∧ (Forall (λ it, 200%N ∉ users it.2) [(4026531992%N, ex_att1)]
     ∧ 200%N ∈ users ex_att2 ∧ users ex_att2 ≠ {[ 200%N ]} ∧ loaded ex_att2
     ∧ Detach ex_range 200%N ex_tracer2 ex_world
         = Ret (None, set_attachments
                        (<[4026532208%N := set_users {[ 10%N ]} ex_att2]> (attachments ex_tracer2))
                        ex_tracer2) ex_world).
Proof.
  assert (10%N ∈ users ex_att1) as Hin1 by by_compute.
  assert (Forall (λ it, 200%N ∉ users it.2) [(4026531992%N, ex_att1)]) as Hpre2
    by (constructor; [by_compute|constructor]).
  assert (200%N ∈ users ex_att2) as Hin2 by by_compute.
  assert (users ex_att2 ≠ {[ 200%N ]}) as Hmore2 by by_compute.
  split.
  - split; [exact ex_range_of|]. split; [exact Hin1|]. split; [reflexivity|].
    split; [exact ex_att1_loaded|].
    destruct (C3_Detach_release ex_tracer2 ex_range [] [(4026532208%N, ex_att2)]
                4026531992%N ex_att1 10%N ex_world ex_range_of eq_refl
                (Forall_nil_2 _) Hin1 ex_att1_loaded) as [Hlast _].
    destruct (Hlast eq_refl) as (rd & c & Hrd & Hc & Hrun).
    injection Hrd as <-. injection Hc as <-. exact Hrun.
  - split; [exact Hpre2|]. split; [exact Hin2|]. split; [exact Hmore2|].
    split; [exact ex_att2_loaded|].
    destruct (C3_Detach_release ex_tracer2 ex_range [(4026531992%N, ex_att1)] []
                4026532208%N ex_att2 200%N ex_world ex_range_of eq_refl
                Hpre2 Hin2 ex_att2_loaded) as [_ Hmore].
    destruct (Hmore Hmore2) as (Hrun & _ & _).
    rewrite Hrun. by vm_compute.
Defined.

(** The registry of [ex_tracer2] arises when pid 10 attaches in the first
    namespace and, having moved, attaches again in the second. *)
Example pid_listed_twice :
  ∃ t' w',
    steps ex_tracer ex_world
      [ (CallAttach (ex_attach_env 0) 10%N 1%N, None);
        (CallAttach ex_attach_env_moved 200%N 1%N, None);
        (CallAttach ex_attach_env_moved 10%N 1%N, None) ] t' w'
    ∧ attachments t' = attachments ex_tracer2.
Proof.
  eexists _, _. split.
  - eapply steps_Attach; [run_call|].
    eapply steps_Attach; [run_call|].
    eapply steps_Attach; [run_call|].
    apply steps_nil.
  - by vm_compute.
Qed.

Lemma C10_Detach_first_found_witness :
  10%N ∈ users ex_att1 ∧ 10%N ∈ users ex_att2
  ∧ (range_of ex_tracer2 ex_range
     ∧ ∃ t' w',
         Detach ex_range 10%N ex_tracer2 ex_world = Ret (None, t') w'
         ∧ attachments t' !! 4026531992%N = None
         ∧ new_events ex_world w'
             = [EvReaderClose 70%N; EvUnixClose 9%Z; EvCollectionClose ex_coll1]
         ∧ attachments t' !! 4026532208%N = Some ex_att2)
  ∧ (range_of ex_tracer2 (reverse ex_range)
     ∧ ∃ t' w',
         Detach (reverse ex_range) 10%N ex_tracer2 ex_world = Ret (None, t') w'
         ∧ attachments t' !! 4026532208%N = Some (set_users {[ 200%N ]} ex_att2)
         ∧ w' = ex_world
         ∧ attachments t' !! 4026531992%N = Some ex_att1).
Proof.
  assert (10%N ∈ users ex_att1) as Hin1 by by_compute.
  assert (10%N ∈ users ex_att2) as Hin2 by by_compute.
  split; [exact Hin1|]. split; [exact Hin2|]. split.
  - split; [exact ex_range_of|].
    destruct (C10_Detach_first_found ex_tracer2 ex_range [] [(4026532208%N, ex_att2)]
                4026531992%N ex_att1 10%N ex_world ex_range_of eq_refl
                (Forall_nil_2 _) Hin1 ex_att1_loaded)
      as (t' & w' & Hrun & _ & Hthis & Hw & _ & _ & Hothers & _).
    exists t', w'. split; [exact Hrun|].
    rewrite decide_True in Hthis by reflexivity.
    rewrite decide_True in Hw by reflexivity.
    split; [exact Hthis|]. split; [rewrite Hw; by vm_compute|].
    rewrite Hothers by done. reflexivity.
  - split; [exact ex_range_of_swapped|].
    destruct (C10_Detach_first_found ex_tracer2 (reverse ex_range) [] [(4026531992%N, ex_att1)]
                4026532208%N ex_att2 10%N ex_world ex_range_of_swapped eq_refl
                (Forall_nil_2 _) Hin2 ex_att2_loaded)
      as (t' & w' & Hrun & _ & Hthis & Hw & _ & _ & Hothers & _).
    exists t', w'. split; [exact Hrun|].
    rewrite decide_False in Hthis by by_compute.
    rewrite decide_False in Hw by by_compute.
    split; [rewrite Hthis; by vm_compute|]. split; [exact Hw|].
    rewrite Hothers by done. reflexivity.
Defined.

(** Failure injected at each step of the construction: what was acquired
    is released, reader first, then raw socket, then collection. *)
Example rollback_at_each_step :
  ex_rollback 1 = Some []
  ∧ ex_rollback 2 = Some []
  ∧ ex_rollback 3 = Some [EvNewCollection ex_coll1; EvCollectionClose ex_coll1]
  ∧ ex_rollback 4
      = Some [EvNewCollection (ex_collection (loaded_spec (ex_attach_env 4) 4026531992%N
                                                (Some ex_se) ex_spec) false);
              EvNewReader 70%N; EvReaderClose 70%N;
              EvCollectionClose (ex_collection (loaded_spec (ex_attach_env 4) 4026531992%N
                                                  (Some ex_se) ex_spec) false)]
  ∧ ex_rollback 5
      = Some [EvNewCollection ex_coll1; EvNewReader 70%N;
              EvReaderClose 70%N; EvCollectionClose ex_coll1]
  ∧ ex_rollback 6
      = Some [EvNewCollection ex_coll1; EvNewReader 70%N; EvOpenRawSock 10%N 9%Z;
              EvReaderClose 70%N; EvUnixClose 9%Z; EvCollectionClose ex_coll1]
  ∧ ex_rollback 0 = None.
Proof. repeat split; by vm_compute. Qed.

Lemma C2_Attach_rollback_witness :
  w_specs ex_world !! spec ex_tracer = Some ex_spec
  ∧ r_GetNetNs (ex_attach_env 6) 10%N = (4026531992%N, None)
  ∧ attachments ex_tracer !! 4026531992%N = None
  ∧ ∃ err w1,
      newAttachment (ex_attach_env 6) 10%N 4026531992%N (socketEnricher ex_tracer)
        (spec ex_tracer) (bpfProgName ex_tracer) (bpfPerfMapName ex_tracer)
        (bpfSocketAttach ex_tracer) ex_world = Ret (None, Some err) w1
      ∧ Attach (ex_attach_env 6) 10%N 1%N ex_tracer ex_world
          = Ret (Some (ErrWrap "creating network tracer attachment for pid 10: " err),
                 ex_tracer) w1
      ∧ new_events ex_world w1
          = [EvNewCollection ex_coll1; EvNewReader 70%N; EvOpenRawSock 10%N 9%Z;
             EvReaderClose 70%N; EvUnixClose 9%Z; EvCollectionClose ex_coll1].
Proof.
  split; [reflexivity|]. split; [reflexivity|]. split; [reflexivity|].
  eexists _, _. split; [reflexivity|].
  split; [|by vm_compute].
  eapply (C2_Attach_rollback (ex_attach_env 6) 10%N 1%N ex_tracer ex_world ex_spec
            4026531992%N None); reflexivity.
Defined.

Lemma C8_template_unchanged_witness :
  w_specs ex_world !! 1%N = Some ex_spec
  ∧ ∃ a1 w1,
      newAttachment (ex_attach_env 0) 10%N 4026531992%N (Some ex_se) 1%N
        "ig_trace_dns" "events" 50%Z ex_world = Ret (Some a1, None) w1
      ∧ collection a1 = Some ex_coll1
      ∧ cs_Consts <$> w_specs w1 !! 2%N = Some {[ "current_netns" := 4026531992%N ]}
      ∧ w_specs w1 !! 1%N = Some ex_spec
      ∧ ∃ a2 w2,
          newAttachment (ex_attach_env 0) 200%N 4026532208%N (Some ex_se) 1%N
            "ig_trace_dns" "events" 50%Z w1 = Ret (Some a2, None) w2
          ∧ collection a2 = Some ex_coll2
          ∧ r_NewCollectionWithOptions (ex_attach_env 0)
              (loaded_spec (ex_attach_env 0) 4026532208%N (Some ex_se) ex_spec)
              (map_replacements (Some ex_se)) = (Some ex_coll2, None).
Proof.
  split; [reflexivity|].
  pose proof (C8_template_unchanged (ex_attach_env 0) 10%N 4026531992%N (Some ex_se) 1%N
                "ig_trace_dns" "events" 50%Z ex_world ex_spec eq_refl) as Hframe.
  destruct (newAttachment (ex_attach_env 0) 10%N 4026531992%N (Some ex_se) 1%N
              "ig_trace_dns" "events" 50%Z ex_world) as [[oa1 oerr1] w1|msg] eqn:Hrun1.
  - pose proof Hrun1 as Heval. vm_compute in Heval. injection Heval as <- <- <-.
    destruct Hframe as (Htemplate & _ & Hlater).
    eexists _, _. split; [reflexivity|]. split; [by vm_compute|].
    split; [by vm_compute|]. split; [exact Htemplate|].
    match goal with |- ∃ a2 w2, ?run = _ ∧ _ =>
      destruct run as [[[a2|] [err2|]] w2|msg2] eqn:Hrun2;
        try (vm_compute in Hrun2; discriminate Hrun2)
    end.
    destruct (Hlater _ _ _ _ _ Hrun2) as (c2 & Hc2 & Hload2).
    exists a2, w2. split; [reflexivity|].
    assert (c2 = ex_coll2) as ->
      by (vm_compute in Hload2; injection Hload2 as <-; by vm_compute).
    split; [exact Hc2|exact Hload2].
  - vm_compute in Hrun1. discriminate Hrun1.
Defined.

Lemma C6_listen_record_witness :
  ((0 < LostSamples ex_lost)%N
   ∧ listen 4026531992%N [(ex_lost, None); (ex_sample, None)] ex_baseEvent ex_processEvent
       = ([Some "lost 3 samples (4026531992)"; Some "sample in 4026531992"], Reading))
  ∧ (LostSamples ex_short = 0%N
     ∧ ex_processEvent (RawSample ex_short) 4026531992%N = (None, Some (ErrNew "short sample"))
     ∧ listen 4026531992%N [(ex_short, None); (ex_sample, None)] ex_baseEvent ex_processEvent
         = ([Some "short sample"; Some "sample in 4026531992"], Reading))
  ∧ (LostSamples ex_filtered = 0%N
     ∧ ex_processEvent (RawSample ex_filtered) 4026531992%N = (None, None)
     ∧ listen 4026531992%N [(ex_filtered, None); (ex_sample, None)] ex_baseEvent ex_processEvent
         = ([Some "sample in 4026531992"], Reading)).
Proof.
  split; [|split].
  - split; [reflexivity|].
    exact (proj1 (proj1 (C6_listen_record 4026531992%N ex_lost [(ex_sample, None)]
                           ex_baseEvent ex_processEvent) eq_refl)).
  - split; [reflexivity|]. split; [reflexivity|].
    exact (proj1 (proj2 (C6_listen_record 4026531992%N ex_short [(ex_sample, None)]
                           ex_baseEvent ex_processEvent)) _ _ eq_refl eq_refl).
  - split; [reflexivity|]. split; [reflexivity|].
    exact (proj2 (proj2 (C6_listen_record 4026531992%N ex_filtered [(ex_sample, None)]
                           ex_baseEvent ex_processEvent)) eq_refl eq_refl).
Defined.

(** A read error after one sample: the closed reader, and a genuine
    failure. *)
Example listen_read_errors :
  listen 4026531992%N [(ex_sample, None); (ex_sample, Some (ErrWrap "perf ringbuffer: " ErrClosed));
                       (ex_sample, None)] ex_baseEvent ex_processEvent
    = ([Some "sample in 4026531992"], Returned)
  ∧ listen 4026531992%N [(ex_sample, None); (ex_sample, Some (ErrNew "epoll wait: EINTR"));
                         (ex_sample, None)] ex_baseEvent ex_processEvent
      = ([Some "sample in 4026531992";
          Some "Error reading perf ring buffer (4026531992): epoll wait: EINTR"], Returned).
Proof. split; by vm_compute. Qed.

Lemma ex_history_steps :
  ∃ t' w', steps ex_tracer ex_world ex_history t' w'
           ∧ attachments t' = {[ 4026531992%N := ex_shared1'; 4026532208%N := ex_single2 ]}.
Proof.
  eexists _, _. split.
  - eapply steps_Attach; [run_call|].
    eapply steps_Attach; [run_call|].
    eapply steps_Attach; [run_call|].
    eapply steps_Detach; [unfold range_of; by vm_compute|run_call|].
    eapply steps_Detach; [unfold range_of; by vm_compute|run_call|].
    apply steps_nil.
  - by vm_compute.
Qed.


(** * More on the ingestion loop *)

Section ListenMore.
Context {Event : Type}.
Implicit Types (baseEvent : types_Event → option Event).
Implicit Types (processEvent : list N → uint64 → option Event * option error).

Lemma listen_cons netns r reads baseEvent processEvent :
  listen netns (r :: reads) baseEvent processEvent =
  match r.2 with
  | Some err => listen netns [r] baseEvent processEvent
  | None =>
    ((listen netns [r] baseEvent processEvent).1 ++ (listen netns reads baseEvent processEvent).1,
     (listen netns reads baseEvent processEvent).2)
  end.
Proof.
  destruct r as [record [err|]]; cbn [snd].
  - cbn. by destruct (errors_Is_ErrClosed err).
  - rewrite !listen_cons_ok. cbn [listen fst snd]. cbv zeta.
    destruct (negb _); [done|].
    destruct (processEvent _ _) as [[ev|] [err|]]; cbn; by destruct (listen _ _ _ _).
Qed.

(** X1: the loop handles the reads in order.  What it hands to the callback
    for [reads1 ++ reads2] is what it hands over for [reads1], followed, when
    the task has not returned by then, by what it hands over for [reads2];
    once the task has returned, further reads change nothing. *)
Theorem X1_listen_app netns reads1 reads2 baseEvent processEvent :
  listen netns (reads1 ++ reads2) baseEvent processEvent =
  match (listen netns reads1 baseEvent processEvent).2 with
  | Returned => listen netns reads1 baseEvent processEvent
  | Reading =>
    ((listen netns reads1 baseEvent processEvent).1
       ++ (listen netns reads2 baseEvent processEvent).1,
     (listen netns reads2 baseEvent processEvent).2)
  end.
Proof.
  induction reads1 as [|r reads1 IH].
  - cbn. by destruct (listen netns reads2 baseEvent processEvent).
  - rewrite <- app_comm_cons, (listen_cons _ r (reads1 ++ reads2)), (listen_cons _ r reads1).
    destruct r as [record [err|]]; cbn [snd].
    + cbn. by destruct (errors_Is_ErrClosed err).
    + rewrite IH. cbn [snd].
      destruct (listen netns reads1 baseEvent processEvent) as [out1 []]; cbn [fst snd].
      * done.
      * by rewrite app_assoc.
Qed.

(** X2: only a failed read ends the task, and each read costs the callback
    at most one invocation.  The task has returned exactly when one of the
    reads failed: lost samples and decoding errors never end it. *)
Theorem X2_listen_returns netns reads baseEvent processEvent :
  ((listen netns reads baseEvent processEvent).2 = Returned
   ↔ Exists (λ r, is_Some r.2) reads)
  ∧ length (listen netns reads baseEvent processEvent).1 ≤ length reads.
Proof.
  induction reads as [|r reads [IHret IHlen]].
  - cbn. split; [|done]. split; [done|]. by intros ?%Exists_nil.
  - rewrite listen_cons. destruct r as [record [err|]]; cbn [snd].
    + split.
      * split; [intros _; left; by eexists|].
        intros _. cbn. by destruct (errors_Is_ErrClosed err).
      * cbn. destruct (errors_Is_ErrClosed err); cbn; lia.
    + split.
      * rewrite IHret. split; [by right|].
        intros [[? [=]]|?]%Exists_cons. done.
      * cbn [fst]. rewrite length_app, length_cons.
        assert (length (listen netns [(record, None)] baseEvent processEvent).1 ≤ 1) as Hone.
        { rewrite listen_cons_ok. cbn. destruct (negb _); [done|].
          destruct (processEvent _ _) as [[ev|] [e|]]; cbn; lia. }
        lia.
Qed.

End ListenMore.

(** * The periodic sweep *)

Lemma cleanupDeletedSocketsNow_spec (e : SE.StartEnv) (cleanupIter : Link) w :
  cleanupDeletedSocketsNow e cleanupIter w =
    Ret (sweep_error e cleanupIter) (set_trace (λ tr, tr ++ sweep_events e cleanupIter) w).
Proof.
  unfold cleanupDeletedSocketsNow, sweep_error, sweep_events.
  destruct (SE.r_IterOpen e cleanupIter) as [file [err|]]; munfold; cbn.
  - f_equal. apply world_eq; cbn; [done..|]. by rewrite app_nil_r.
  - f_equal. apply world_eq; cbn; [done..|]. by rewrite <- app_assoc.
Qed.

Lemma cleanupDeletedSockets_ticks (es : list SE.StartEnv) (tail : list wakeup)
    (cleanupIter : Link) w :
  cleanupDeletedSockets ((WakeTick <$> es) ++ tail) cleanupIter w =
    match cleanupDeletedSockets tail cleanupIter
            (set_trace (λ tr, tr ++ concat ((λ e, sweep_events e cleanupIter) <$> es)) w) with
    | Ret (out, st) w' =>
      Ret (omap (λ e, sweep_line <$> sweep_error e cleanupIter) es ++ out, st) w'
    | Panic msg => Panic msg
    end.
Proof.
  revert w. induction es as [|e es IH]; intros w.
  - cbn. replace (set_trace (λ tr, tr ++ []) w) with w
      by (apply world_eq; cbn; by rewrite ?app_nil_r).
    by destruct (cleanupDeletedSockets tail cleanupIter w) as [[out st] w'|].
  - cbn [fmap list_fmap app cleanupDeletedSockets]. munfold.
    rewrite cleanupDeletedSocketsNow_spec.
    change (list_fmap _ _ WakeTick es) with (WakeTick <$> es). rewrite IH.
    replace (set_trace (λ tr, tr ++ concat ((λ e0, sweep_events e0 cleanupIter) <$> es))
               (set_trace (λ tr, tr ++ sweep_events e cleanupIter) w))
      with (set_trace (λ tr, tr ++ concat ((λ e0, sweep_events e0 cleanupIter) <$> e :: es)) w)
      by (apply world_eq; cbn; [done..|]; by rewrite <- app_assoc).
    destruct (cleanupDeletedSockets tail cleanupIter _) as [[out st] w'|msg]; [|done].
    cbn. by destruct (sweep_error e cleanupIter).
Qed.

(** X3: a failing sweep never stops the schedule.  After any number of
    ticks, whatever the sweeps returned, the task still waits for the next
    wake-up; it has printed one line per failed sweep, in order, and every
    file a sweep opened has been closed before the next tick.  The task
    returns at the first receive from [se.done], and wake-ups after it are
    never looked at. *)
Theorem X3_sweep_schedule (es : list SE.StartEnv) (later : list wakeup) (cleanupIter : Link) w :
  let w' := set_trace (λ tr, tr ++ concat ((λ e, sweep_events e cleanupIter) <$> es)) w in
  let lines := omap (λ e, sweep_line <$> sweep_error e cleanupIter) es in
  cleanupDeletedSockets (WakeTick <$> es) cleanupIter w = Ret (lines, Waiting) w'
  ∧ cleanupDeletedSockets ((WakeTick <$> es) ++ WakeDone :: later) cleanupIter w
      = Ret (lines, Stopped) w'
  ∧ omap file_closed (new_events w w') = omap file_opened (new_events w w').
Proof.
  intros w' lines. split; [|split].
  - rewrite <- (app_nil_r (WakeTick <$> es)), cleanupDeletedSockets_ticks.
    cbn. munfold. by rewrite app_nil_r.
  - rewrite cleanupDeletedSockets_ticks. cbn. munfold. by rewrite app_nil_r.
  - erewrite new_events_app by (subst w'; cbn; reflexivity).
    clear. induction es as [|e es IH]; [done|].
    cbn [fmap list_fmap concat]. rewrite !omap_app.
    change (list_fmap _ _ ?f es) with (f <$> es). rewrite IH. f_equal.
    unfold sweep_events. by destruct (SE.r_IterOpen e cleanupIter) as [file [err|]].
Qed.

(** * More on the registry *)

Section RegistryMore.
Context {Event : Type}.
Implicit Types (t : Tracer Event) (e : AttachEnv) (its : list (uint64 * attachment)).

Lemma set_attachments_id t (m : gmap N attachment) :
  m = attachments t → set_attachments m t = t.
Proof. intros ->. by destruct t. Qed.

Lemma set_users_id (a : attachment) : set_users (users a) a = a.
Proof. by destruct a. Qed.

(** X4: [Attach] keeps no count per pid.  Once [containerutils.GetNetNs]
    has resolved the pid to a namespace whose attachment already lists it,
    [Attach] returns nil and leaves the tracer and the world (specs,
    channels, events) as they were, whatever the kernel would answer to any
    other call: no spec is copied, nothing is loaded or opened, no ingestion
    task is started. *)
Theorem X4_Attach_listed_pid e pid cb t w netns a :
  r_GetNetNs e pid = (netns, None) →
  attachments t !! netns = Some a →
  pid ∈ users a →
  Attach e pid cb t w = Ret (None, t) w.
Proof.
  intros Hns Ha Hin. rewrite (Attach_existing e pid cb t w netns a) by done.
  assert ({[ pid ]} ∪ users a = users a) as ->.
  { apply set_eq. intros x. rewrite elem_of_union, elem_of_singleton.
    split; [intros [->|?]; done|by right]. }
  apply f_equal2; [|done]. f_equal. apply set_attachments_id.
  by rewrite set_users_id, insert_id.
Qed.

(** In a registry that does not list [pid], the attachment of [netns]
    extended with [pid] is the only one that lists it. *)
Lemma only_listing t its pid (netns : uint64) (a a1 : attachment) :
  (∀ ns b, attachments t !! ns = Some b → pid ∉ users b) →
  its ≡ₚ map_to_list (<[netns := a1]> (attachments t)) →
  pid ∈ users a1 →
  ∃ pre post, its = pre ++ (netns, a1) :: post ∧ Forall (λ it, pid ∉ users it.2) pre.
Proof.
  intros Hnone Hperm Hin.
  destruct (first_listing its pid) as [Hall|(pre & ns & b & post & -> & Hpre & Hb)].
  - exfalso. apply (proj1 (Forall_forall _ _) Hall (netns, a1)); [|done].
    rewrite Hperm. apply elem_of_map_to_list. by rewrite lookup_insert_eq.
  - exists pre, post. split; [|done].
    assert ((ns, b) ∈ map_to_list (<[netns := a1]> (attachments t))) as Hlook.
    { rewrite <- Hperm. apply elem_of_app. right. by left. }
    apply elem_of_map_to_list in Hlook.
    destruct (decide (ns = netns)) as [->|Hne].
    + rewrite lookup_insert_eq in Hlook. by injection Hlook as <-.
    + rewrite lookup_insert_ne in Hlook by done. by destruct (Hnone ns b Hlook).
Qed.

(** X5: joining and leaving a namespace that already has its attachment.
    When [pid] is listed nowhere and the attachment of the namespace that
    [containerutils.GetNetNs] resolves it to has users, [Attach] returns nil
    and leaves the world as it was (after the namespace lookup it loads,
    opens and starts nothing), and the [Detach] that follows, whatever the
    order of [range], returns nil, releases nothing and gives back the tracer
    as it was before the [Attach]. *)
Theorem X5_Attach_Detach_shared e pid cb t w netns a its :
  r_GetNetNs e pid = (netns, None) →
  attachments t !! netns = Some a →
  users a ≠ ∅ →
  (∀ ns b, attachments t !! ns = Some b → pid ∉ users b) →
  ∃ t1,
    Attach e pid cb t w = Ret (None, t1) w
    ∧ (range_of t1 its → Detach its pid t1 w = Ret (None, t) w).
Proof.
  intros Hns Ha Hne Hnone. eexists. split; [by apply Attach_existing|].
  unfold range_of. cbn. intros Hrange.
  assert (pid ∈ {[ pid ]} ∪ users a) as Hin
    by (apply elem_of_union; left; by apply elem_of_singleton).
  destruct (only_listing t its pid netns a (set_users ({[ pid ]} ∪ users a) a) Hnone Hrange Hin)
    as (pre & post & -> & Hpre).
  rewrite Detach_skip by done. rewrite Detach_first_more; cbn; [|done|].
  - assert (({[ pid ]} ∪ users a) ∖ {[ pid ]} = users a) as ->.
    { apply set_eq. intros x.
      rewrite elem_of_difference, elem_of_union, elem_of_singleton. split.
      - by intros [[->|?] ?].
      - intros Hx. split; [by right|]. intros ->. by apply (Hnone netns a). }
    do 2 f_equal. apply (set_attachments_id t).
    rewrite insert_insert_eq. apply insert_id. rewrite Ha. f_equal. by destruct a.
  - intros Heq. apply Hne. apply set_eq. intros x.
    rewrite elem_of_empty. split; [|done]. intros Hx.
    assert (x ∈ ({[ pid ]} : gset N)) as Hx'
      by (rewrite <- Heq; apply elem_of_union; by right).
    apply elem_of_singleton in Hx' as ->. by apply (Hnone netns a).
Qed.

(** X6: the only user of a new namespace.  When the construction goes
    through, with a reader, [Attach] followed by [Detach] of the same pid
    gives back the tracer as it was, and the events of the two calls are the
    acquisitions, the socket option, the start of the ingestion task, then
    the release of the reader, of the raw socket and of the collection. *)
Theorem X6_Attach_Detach_alone e pid cb t w netns cs c rd fd prog its :
  w_specs w !! spec t = Some cs →
  r_GetNetNs e pid = (netns, None) →
  attachments t !! netns = None →
  (∀ ns b, attachments t !! ns = Some b → pid ∉ users b) →
  constructs e pid netns (socketEnricher t) cs
    (bpfProgName t) (bpfPerfMapName t) (bpfSocketAttach t) c (Some rd) fd prog →
  ∃ t1 w1 w2,
    Attach e pid cb t w = Ret (None, t1) w1
    ∧ attachments t1 !! netns
        = Some {| collection := Some c; perfRd := Some rd; sockFd := fd; users := {[ pid ]} |}
    ∧ (range_of t1 its →
       Detach its pid t1 w1 = Ret (None, t) w2
       ∧ new_events w w2
           = acquired (Some c) (Some rd) pid fd
               ++ [EvSetsockopt fd (bpfSocketAttach t) prog; EvGoListen netns (Some rd) cb;
                   EvReaderClose rd; EvUnixClose fd; EvCollectionClose c]).
Proof.
  intros Hcs Hns Hnew Hnone Hok.
  pose proof (Attach_new e pid cb t w netns Hns Hnew) as Hattach.
  rewrite (newAttachment_constructs _ _ _ _ _ _ _ _ _ _ _ _ _ _ Hcs Hok) in Hattach.
  eexists _, _, _. split; [exact Hattach|]. cbn. split; [by rewrite lookup_insert_eq|].
  unfold range_of. cbn. intros Hrange.
  set (a1 := {| collection := Some c; perfRd := Some rd; sockFd := fd; users := {[ pid ]} |}) in *.
  assert (pid ∈ users a1) as Hin by (subst a1; cbn; by apply elem_of_singleton).
  destruct (only_listing t its pid netns a1 a1 Hnone Hrange Hin) as (pre & post & -> & Hpre).
  rewrite Detach_skip by done.
  rewrite Detach_first_last; [|done|done|by split; eexists].
  split.
  { do 2 f_equal. apply (set_attachments_id t). cbn. by apply delete_insert_id. }
  apply new_events_app. unfold acquired. cbn.
  destruct (decide (fd = (-1)%Z)); cbn; by rewrite <- ?app_assoc.
Qed.

End RegistryMore.

(** * Shutdown of the tracer *)

Section CloseTracer.
Context {Event : Type}.
Implicit Types (t : Tracer Event) (its : list (uint64 * attachment)).

Lemma Close_range_loaded its t w :
  Forall (λ it, loaded it.2) its →
  Close_range its t w =
    Ret (set_attachments (foldl (λ m it, delete it.1 m) (attachments t) its) t)
        (set_trace (λ tr, tr ++ concat ((λ it, release_events it.2) <$> its)) w).
Proof.
  intros Hall. revert t w. induction Hall as [|[ns a] its Ha _ IH]; intros t w.
  - cbn. munfold. f_equal.
    + by destruct t.
    + apply world_eq; cbn; by rewrite ?app_nil_r.
  - cbn [Close_range]. munfold. rewrite releaseAttachment_loaded by done.
    rewrite IH. cbn. f_equal. apply world_eq; cbn; [done..|]. by rewrite <- app_assoc.
Qed.

Lemma lookup_foldl_delete (m : gmap N attachment) its (k : uint64) :
  foldl (λ m it, delete it.1 m) m its !! k = if decide (k ∈ its.*1) then None else m !! k.
Proof.
  revert m. induction its as [|[ns a] its IH]; intros m; cbn.
  - rewrite decide_False; [done|]. apply not_elem_of_nil.
  - rewrite IH. destruct (decide (k ∈ its.*1)) as [Hin|Hnot].
    + rewrite decide_True; [done|]. by right.
    + destruct (decide (k = ns)) as [->|Hne].
      * rewrite decide_True by left. apply lookup_delete_eq.
      * rewrite decide_False by (by intros [?|?]%elem_of_cons).
        by apply lookup_delete_ne.
Qed.

Lemma foldl_delete_all (m : gmap N attachment) its :
  its ≡ₚ map_to_list m → foldl (λ m it, delete it.1 m) m its = ∅.
Proof.
  intros Hperm. apply map_eq. intros k. rewrite lookup_foldl_delete, lookup_empty.
  destruct (decide (k ∈ its.*1)) as [|Hnot]; [done|].
  destruct (m !! k) as [a|] eqn:Hk; [|done].
  destruct Hnot. apply list_elem_of_fmap. exists (k, a). split; [done|].
  rewrite Hperm. by apply elem_of_map_to_list.
Qed.

(** X7: [Close] releases every attachment still registered, however many
    users it has: in the order of [range], each gets its reader, raw socket
    and collection closed; the registry ends empty; only then is the
    enrichment service closed, when the tracer has one. *)
Theorem X7_Close_releases_all t its w :
  range_of t its →
  (∀ ns a, attachments t !! ns = Some a → loaded a) →
  let w1 := set_trace (λ tr, tr ++ concat ((λ it, release_events it.2) <$> its)) w in
  Close its t w =
    match socketEnricher t with
    | None => Ret (set_attachments ∅ t) w1
    | Some se =>
      match SE.Close se w1 with
      | Ret se' w' => Ret (set_socketEnricher (Some se') (set_attachments ∅ t)) w'
      | Panic msg => Panic msg
      end
    end
  ∧ length (concat ((λ it, release_events it.2) <$> its)) = 3 * size (attachments t).
Proof.
  intros Hrange Hloaded w1.
  assert (Forall (λ it, loaded it.2) its) as Hall.
  { apply Forall_forall. intros [ns a] Hin. cbn.
    apply (Hloaded ns). by apply (range_of_lookup t its). }
  split.
  - unfold Close. munfold. rewrite Close_range_loaded by done.
    rewrite foldl_delete_all by done. fold w1. cbn.
    by destruct (socketEnricher t).
  - unfold range_of in Hrange.
    rewrite <- length_map_to_list, <- Hrange. clear Hrange Hloaded w1.
    induction Hall as [|[ns a] its [[rd Hrd] [c Hc]] _ IH]; [done|].
    cbn. rewrite length_app, IH. unfold release_events. cbn in Hrd, Hc.
    rewrite Hrd, Hc. cbn. lia.
Qed.

End CloseTracer.

(** * More on the construction *)

Section ConstructionMore.
Implicit Types (e : AttachEnv) (se : option SE.SocketEnricher) (cs : CollectionSpec).

(** X8: the namespace reaches the probe through [uint32(netns)] only.  Two
    namespace ids with the same low 32 bits give the same construction: the
    same constant is written, the same answers are used, the same result is
    returned. *)
Theorem X8_newAttachment_low_bits e pid (netns netns' : uint64) se l pn pm opt w :
  (netns mod 2 ^ 32 = netns' mod 2 ^ 32)%N →
  newAttachment e pid netns se l pn pm opt w = newAttachment e pid netns' se l pn pm opt w.
Proof.
  intros Hlow. unfold newAttachment, newAttachment_body, newAttachment_opts.
  by rewrite Hlow.
Qed.

(** X9: [newAttachment] returns an attachment exactly when each of its
    steps succeeds: the rewriting (with a socket enricher), the loading of the
    copy with the enricher's table in place of "sockets", the reader, the
    program lookup, the raw socket and the socket option.  The attachment
    then holds the handles received and the pid as its only user, and nothing
    has been closed. *)
Theorem X9_newAttachment_success e pid netns se l pn pm opt w cs a w' :
  w_specs w !! l = Some cs →
  newAttachment e pid netns se l pn pm opt w = Ret (Some a, None) w'
  ↔ ∃ c rd fd prog,
      constructs e pid netns se cs pn pm opt c rd fd prog
      ∧ a = {| collection := Some c; perfRd := rd; sockFd := fd; users := {[ pid ]} |}
      ∧ w' = set_trace (λ tr, tr ++ acquired (Some c) rd pid fd ++ [EvSetsockopt fd opt prog])
               (set_specs <[fresh (dom (w_specs w)) := loaded_spec e netns se cs]> w).
Proof.
  intros Hcs. split.
  - intros Hrun.
    pose proof (newAttachment_spec e pid netns se l pn pm opt w cs Hcs) as Hspec.
    cbv zeta in Hspec. rewrite Hrun in Hspec.
    destruct Hspec as (Hspecs & Hchans & c & rd & fd & prog & [= ->] & Hok & Htrace).
    exists c, rd, fd, prog. split; [done|]. split; [done|].
    by apply world_eq.
  - intros (c & rd & fd & prog & Hok & -> & ->).
    by apply newAttachment_constructs.
Qed.

End ConstructionMore.

(** * Starting the socket enricher *)

(** Projections of the link events. *)
Lemma omap_link_attached_attach (ls : list Link) :
  omap link_attached (EvLinkAttach <$> ls) = ls.
Proof. induction ls as [|l ls IH]; simpl; [done|]. f_equal. exact IH. Qed.
Lemma omap_link_closed_attach (ls : list Link) :
  omap link_closed (EvLinkAttach <$> ls) = [].
Proof. by induction ls. Qed.
Lemma omap_link_closed_close (ls : list Link) :
  omap link_closed (EvLinkClose <$> ls) = ls.
Proof. induction ls as [|l ls IH]; simpl; [done|]. f_equal. exact IH. Qed.
Lemma omap_link_attached_close (ls : list Link) :
  omap link_attached (EvLinkClose <$> ls) = [].
Proof. by induction ls. Qed.
Lemma omap_file_opened_attach (ls : list Link) :
  omap file_opened (EvLinkAttach <$> ls) = [].
Proof. by induction ls. Qed.
Lemma omap_file_closed_attach (ls : list Link) :
  omap file_closed (EvLinkAttach <$> ls) = [].
Proof. by induction ls. Qed.
Lemma omap_file_opened_close (ls : list Link) :
  omap file_opened (EvLinkClose <$> ls) = [].
Proof. by induction ls. Qed.
Lemma omap_file_closed_close (ls : list Link) :
  omap file_closed (EvLinkClose <$> ls) = [].
Proof. by induction ls. Qed.
Lemma filter_GoCleanup_attach (ls : list Link) :
  filter is_GoCleanup (EvLinkAttach <$> ls) = [].
Proof. by induction ls. Qed.
Lemma filter_GoCleanup_close (ls : list Link) :
  filter is_GoCleanup (EvLinkClose <$> ls) = [].
Proof. by induction ls. Qed.
Lemma filter_ObjsClose_attach (ls : list Link) :
  filter is_ObjsClose (EvLinkAttach <$> ls) = [].
Proof. by induction ls. Qed.
Lemma filter_ObjsClose_close (ls : list Link) :
  filter is_ObjsClose (EvLinkClose <$> ls) = [].
Proof. by induction ls. Qed.

Lemma filter_ChanClose_attach (ls : list Link) :
  filter is_ChanClose (EvLinkAttach <$> ls) = [].
Proof. by induction ls. Qed.

Lemma service_event_attach (ls : list Link) :
  Forall (λ ev, service_event ev = true) (EvLinkAttach <$> ls).
Proof. by induction ls; constructor. Qed.
Lemma service_event_close (ls : list Link) :
  Forall (λ ev, service_event ev = true) (EvLinkClose <$> ls).
Proof. by induction ls; constructor. Qed.

Ltac service_events :=
  repeat first [ apply Forall_app; split
               | apply service_event_attach
               | apply service_event_close
               | apply Forall_nil_2
               | apply Forall_cons; split; [reflexivity|] ].

Ltac project_events :=
  rewrite ?omap_app, ?filter_app,
    ?omap_link_attached_attach, ?omap_link_closed_attach,
    ?omap_file_opened_attach, ?omap_file_closed_attach,
    ?filter_GoCleanup_attach, ?filter_ObjsClose_attach,
    ?omap_link_attached_close, ?omap_link_closed_close,
    ?omap_file_opened_close, ?omap_file_closed_close,
    ?filter_GoCleanup_close, ?filter_ObjsClose_close,
    ?filter_ChanClose_attach, ?no_ChanClose_links.

Section EnricherStart.
Implicit Types (se : SE.SocketEnricher) (e : SE.StartEnv).

Lemma set_links_id se (ls : list Link) : ls = SE.links se → SE.set_links ls se = se.
Proof. intros ->. by destruct se. Qed.

Lemma set_trace_nil (w : World) : set_trace (λ tr, tr ++ []) w = w.
Proof. apply world_eq; simpl; [done..|]. by rewrite app_nil_r. Qed.

(** The run of probe attachments: the links it got are appended to
    [se.links] and are the events it leaves; it stops at the first answer with
    an error. *)
Lemma attach_probes_trace e ps se w :
  ∃ new err,
    SE.attach_probes e ps se w =
      Ret (SE.set_links (SE.links se ++ new) se, err)
          (set_trace (λ tr, tr ++ (EvLinkAttach <$> new)) w)
    ∧ (if forallb (λ p, succeeded (SE.attach_probe e (SE.objs se) p).2) ps
       then err = None ∧ new = (λ p, (SE.attach_probe e (SE.objs se) p).1) <$> ps
       else is_Some err).
Proof.
  revert se w. induction ps as [|p ps IH]; intros se w; simpl.
  - exists [], None. munfold. split; [|done].
    rewrite set_trace_nil, set_links_id; [done|]. by rewrite app_nil_r.
  - destruct (SE.attach_probe e (SE.objs se) p) as [l [err|]] eqn:Hp; simpl.
    + exists [], (Some (ErrWrap p.2 err)). munfold. split; [|done].
      rewrite set_trace_nil, set_links_id; [done|]. by rewrite app_nil_r.
    + munfold. simpl.
      destruct (IH (SE.set_links (SE.links se ++ [l]) se)
                   (set_trace (λ tr, tr ++ [EvLinkAttach l]) w))
        as (new & err & -> & Hok).
      exists (l :: new), err. split.
      * f_equal.
        -- unfold SE.set_links. simpl. by rewrite <- app_assoc.
        -- apply world_eq; simpl; [done..|]. by rewrite <- app_assoc.
      * simpl in Hok. destruct (forallb _ ps); [|done].
        destruct Hok as [-> ->]. done.
Qed.

(** [start], by the kernel's answers: where it stops, what it leaves in the
    service, and the events of the run. *)
Lemma start_trace e se0 w :
  ∃ se err w' evs new,
    SE.start e se0 w = Ret (se, err) w'
    ∧ Forall (λ ev, service_event ev = true) evs
    ∧ w_specs w' = w_specs w ∧ w_trace w' = w_trace w ++ evs
    ∧ SE.links se = SE.links se0 ++ new
    ∧ SE.closeOnce se = SE.closeOnce se0
    ∧ omap link_attached evs ≡ₚ new ++ omap link_closed evs
    ∧ omap file_closed evs = omap file_opened evs
    ∧ filter is_ObjsClose evs = []
    ∧ filter is_ChanClose evs = []
    ∧ if start_succeeds e
      then let c := fresh (dom (w_chans w)) in
           err = None
           ∧ SE.objs se = (SE.r_LoadAndAssign e).1
           ∧ new = probe_links e ++ [cleanup_iter e]
           ∧ SE.done se = Some c
           ∧ w_chans w' = <[c:=false]> (w_chans w)
           ∧ evs = start_events e c
      else is_Some err ∧ SE.done se = SE.done se0 ∧ w_chans w' = w_chans w
           ∧ filter is_GoCleanup evs = [].
Proof.
  unfold SE.start, start_succeeds, start_events, seeding_iter, cleanup_iter, probe_links.
  destruct (SE.r_loadSocketenricher e) as [err|].
  { exists se0, (Some (ErrWrap "loading asset: " err)), w, [], [].
    rewrite !app_nil_r. split; [done|]. split; [constructor|]. by repeat split. }
  destruct (SE.r_LoadAndAssign e) as [o [err|]].
  { exists (SE.set_objs o se0), (Some (ErrWrap "loading ebpf program: " err)), w, [], [].
    rewrite !app_nil_r. split; [done|]. split; [constructor|]. by repeat split. }
  munfold. cbn [fst snd succeeded andb].
  destruct (attach_probes_trace e SE.probes (SE.set_objs o se0)
              (set_trace (λ tr, tr ++ [EvLoadAndAssign o]) w))
    as (new & err1 & Hrun & Hok).
  cbn [SE.objs SE.set_objs] in Hok.
  rewrite Hrun. clear Hrun.
  destruct (forallb _ SE.probes); cbn [andb]; cycle 1.
  { destruct Hok as [err Herr]. subst err1.
    eexists _, _, _, ([EvLoadAndAssign o] ++ (EvLinkAttach <$> new)), new.
    split; [reflexivity|]. split; [service_events|].
    cbn [w_specs w_trace set_trace SE.links SE.set_links SE.set_objs
      SE.closeOnce SE.done w_chans].
    project_events. cbn. rewrite app_nil_r, <- !app_assoc.
    by repeat split. }
  destruct Hok as [-> Hnew].
  cbn [SE.objs SE.set_links SE.set_objs].
  destruct (SE.r_AttachIter e (objs_Programs o !! "IgSocketsIt") None) as [socketsIter [err|]];
    cbn [fst snd succeeded andb].
  { eexists _, _, _, ([EvLoadAndAssign o] ++ (EvLinkAttach <$> new)), new.
    split; [reflexivity|]. split; [service_events|].
    cbn [w_specs w_trace set_trace SE.links SE.set_links SE.set_objs
      SE.closeOnce SE.done w_chans].
    project_events. cbn. rewrite app_nil_r, <- !app_assoc.
    by repeat split. }
  destruct (SE.r_IterOpen e socketsIter) as [file [err|]]; cbn [fst snd succeeded andb].
  { eexists _, _, _, ([EvLoadAndAssign o] ++ (EvLinkAttach <$> new)
                       ++ [EvLinkAttach socketsIter; EvLinkClose socketsIter]), new.
    split; [reflexivity|]. split; [service_events|].
    cbn [w_specs w_trace set_trace SE.links SE.set_links SE.set_objs
      SE.closeOnce SE.done w_chans].
    project_events. cbn. rewrite ?app_nil_r, <- !app_assoc.
    by repeat split. }
  destruct (SE.r_ReadAll e file) as [err|]; cbn [fst snd succeeded andb].
  { eexists _, _, _, ([EvLoadAndAssign o] ++ (EvLinkAttach <$> new)
                       ++ [EvLinkAttach socketsIter; EvFileOpen file;
                           EvFileClose file; EvLinkClose socketsIter]), new.
    split; [reflexivity|]. split; [service_events|].
    cbn [w_specs w_trace set_trace SE.links SE.set_links SE.set_objs
      SE.closeOnce SE.done w_chans].
    project_events. cbn. rewrite ?app_nil_r, <- !app_assoc.
    by repeat split. }
  unfold SE.start_cleanup. cbn [SE.objs SE.set_links SE.set_objs].
  destruct (SE.r_AttachIter e (objs_Programs o !! "IgSkCleanup") (Sockets o))
    as [cleanupIter [err|]]; cbn [fst snd succeeded andb]; munfold.
  { eexists _, _, _, ([EvLoadAndAssign o] ++ (EvLinkAttach <$> new)
                       ++ [EvLinkAttach socketsIter; EvFileOpen file;
                           EvFileClose file; EvLinkClose socketsIter]), new.
    split; [reflexivity|]. split; [service_events|].
    cbn [w_specs w_trace set_trace SE.links SE.set_links SE.set_objs
      SE.closeOnce SE.done w_chans].
    project_events. cbn. rewrite ?app_nil_r, <- !app_assoc.
    by repeat split. }
  unfold make_chan.
  eexists _, _, _, ([EvLoadAndAssign o] ++ (EvLinkAttach <$> new)
                     ++ [EvLinkAttach socketsIter; EvFileOpen file;
                         EvLinkAttach cleanupIter;
                         EvGoCleanup cleanupIter (fresh (dom (w_chans w)));
                         EvFileClose file; EvLinkClose socketsIter]),
    (new ++ [cleanupIter]).
  split; [reflexivity|]. split; [service_events|].
  cbn [w_specs w_trace set_trace set_chans SE.links SE.set_links
    SE.set_objs SE.set_done SE.closeOnce SE.done SE.objs w_chans].
  project_events. cbn. rewrite ?app_nil_r, <- !app_assoc. subst new.
  repeat split; try done.
  apply Permutation_app_head. cbn. apply perm_swap.
Qed.

(** [NewSocketEnricher], whatever the kernel answers: the events it leaves
    and the service it returns. *)
Lemma NewSocketEnricher_trace e w :
  ∃ r err w' evs,
    SE.NewSocketEnricher e w = Ret (r, err) w'
    ∧ Forall (λ ev, service_event ev = true) evs
    ∧ w_specs w' = w_specs w ∧ w_trace w' = w_trace w ++ evs
    ∧ omap link_attached evs ≡ₚ held_links r ++ omap link_closed evs
    ∧ omap file_closed evs = omap file_opened evs
    ∧ filter is_ChanClose evs = []
    ∧ match r with
      | Some se =>
        err = None ∧ SE.closeOnce se = false
        ∧ length (filter is_GoCleanup evs) = 1
        ∧ ∃ c, SE.done se = Some c ∧ w_chans w' !! c = Some false
      | None => is_Some err ∧ filter is_GoCleanup evs = []
      end.
Proof.
  unfold SE.NewSocketEnricher. munfold.
  match goal with |- context [SE.start e ?se0 w] =>
    destruct (start_trace e se0 w)
      as (se & err & w1 & evs & new & -> & Hsrv & Hspecs & Htrace & Hlinks & Honce
          & Hbal & Hfiles & Hobjs & Hchan & Hcase)
  end.
  cbn [SE.links SE.closeOnce SE.done app] in Hlinks, Honce, Hcase.
  destruct (start_succeeds e).
  - cbn zeta in Hcase. destruct Hcase as (-> & _ & _ & Hdone & Hchans & Hevs).
    exists (Some se), None, w1, evs. split; [done|]. split; [done|].
    split; [done|]. split; [done|]. cbn [held_links]. rewrite Hlinks.
    split; [done|]. split; [done|]. split; [done|].
    split; [done|]. split; [done|]. split.
    { rewrite Hevs. unfold start_events. by project_events. }
    eexists. split; [done|]. rewrite Hchans. apply lookup_insert_eq.
  - destruct Hcase as ([err' ->] & Hdone & Hchans & Hgo).
    rewrite Close_unstarted by done.
    exists None, (Some err'), (set_trace (λ tr, tr ++ (EvLinkClose <$> SE.links se)
                                ++ [EvObjsClose (SE.objs se)]) w1),
      (evs ++ (EvLinkClose <$> new) ++ [EvObjsClose (SE.objs se)]).
    split; [done|]. split; [service_events; done|]. split; [done|].
    split; [cbn; by rewrite Htrace, Hlinks, <- !app_assoc|].
    project_events. rewrite Hgo, Hfiles. cbn. rewrite !app_nil_r.
    split; [by rewrite Hbal, Permutation_app_comm|]. split; [done|].
    split; [by rewrite Hchan|]. by split; [eexists|].
Qed.

(** X10: when every answer of the kernel and the loader is without error,
    [NewSocketEnricher] returns a service that holds the loaded objects, the
    twelve probe links followed by the cleanup iterator, an unspent
    once-guard and a fresh open channel; the run loads the objects, attaches
    the probes in program order, attaches and opens the seeding iterator,
    attaches the cleanup iterator, starts the sweep task, and only then
    closes the seeding iterator's file and link, which the service does not
    keep. *)
Theorem X10_NewSocketEnricher_started e w :
  start_succeeds e = true →
  let c := fresh (dom (w_chans w)) in
  SE.NewSocketEnricher e w =
    Ret (Some {| SE.objs := (SE.r_LoadAndAssign e).1;
                 SE.links := probe_links e ++ [cleanup_iter e];
                 SE.closeOnce := false;
                 SE.done := Some c |}, None)
        (set_trace (λ tr, tr ++ start_events e c) (set_chans <[c:=false]> w)).
Proof.
  intros Hok c. unfold SE.NewSocketEnricher. munfold.
  match goal with |- context [SE.start e ?se0 w] =>
    destruct (start_trace e se0 w)
      as (se & err & w1 & evs & new & -> & _ & Hspecs & Htrace & Hlinks & Honce
          & _ & _ & _ & _ & Hcase)
  end.
  rewrite Hok in Hcase. cbn zeta in Hcase. fold c in Hcase.
  destruct Hcase as (-> & Hobjs & -> & Hdone & Hchans & ->).
  cbn [SE.links SE.closeOnce] in Hlinks, Honce. f_equal.
  - destruct se. cbn in *. by subst.
  - apply world_eq; cbn; done.
Qed.

(** X11: when some answer of the kernel or the loader carries an error,
    [NewSocketEnricher] returns no service and an error, and it has undone
    what was done before the failure: every link that was attached has been
    closed, every file that was opened has been closed, the objects have been
    closed once, no sweep task was started, and no channel was made. *)
Theorem X11_NewSocketEnricher_failure e w :
  start_succeeds e = false →
  ∃ err w',
    SE.NewSocketEnricher e w = Ret (None, Some err) w'
    ∧ w_specs w' = w_specs w
    ∧ w_chans w' = w_chans w
    ∧ omap link_closed (new_events w w') ≡ₚ omap link_attached (new_events w w')
    ∧ omap file_closed (new_events w w') = omap file_opened (new_events w w')
    ∧ length (filter is_ObjsClose (new_events w w')) = 1
    ∧ filter is_GoCleanup (new_events w w') = [].
Proof.
  intros Hfail. unfold SE.NewSocketEnricher. munfold.
  match goal with |- context [SE.start e ?se0 w] =>
    destruct (start_trace e se0 w)
      as (se & err & w1 & evs & new & -> & _ & Hspecs & Htrace & Hlinks & Honce
          & Hbal & Hfiles & Hobjs & Hchan & Hcase)
  end.
  rewrite Hfail in Hcase. destruct Hcase as ([err' ->] & Hdone & Hchans & Hgo).
  cbn [SE.links SE.done app] in Hlinks, Hdone.
  rewrite Close_unstarted by done.
  eexists _, _. split; [reflexivity|].
  erewrite (new_events_app w _ (evs ++ (EvLinkClose <$> new) ++ [EvObjsClose (SE.objs se)])).
  2: { cbn. rewrite Htrace, Hlinks. by rewrite <- !app_assoc. }
  project_events. rewrite Hobjs, Hgo, Hfiles. cbn. rewrite !app_nil_r.
  repeat split; try done.
  rewrite Hbal. apply Permutation_app_comm.
Qed.

End EnricherStart.

Lemma X10_NewSocketEnricher_started_witness :
  SE.NewSocketEnricher ex_start_env empty_world =
    Ret (Some {| SE.objs := ex_objs;
                 SE.links := probe_links ex_start_env ++ [cleanup_iter ex_start_env];
                 SE.closeOnce := false;
                 SE.done := Some (fresh (dom (w_chans empty_world))) |}, None)
        (set_trace (λ tr, tr ++ start_events ex_start_env (fresh (dom (w_chans empty_world))))
           (set_chans <[fresh (dom (w_chans empty_world)):=false]> empty_world)).
Proof. apply (X10_NewSocketEnricher_started ex_start_env empty_world). reflexivity. Defined.

Lemma X11_NewSocketEnricher_failure_witness :
  ∃ err w',
    SE.NewSocketEnricher ex_start_env_noread empty_world = Ret (None, Some err) w'
    ∧ w_specs w' = w_specs empty_world
    ∧ w_chans w' = w_chans empty_world
    ∧ omap link_closed (new_events empty_world w')
        ≡ₚ omap link_attached (new_events empty_world w')
    ∧ omap file_closed (new_events empty_world w')
        = omap file_opened (new_events empty_world w')
    ∧ length (filter is_ObjsClose (new_events empty_world w')) = 1
    ∧ filter is_GoCleanup (new_events empty_world w') = [].
Proof. apply (X11_NewSocketEnricher_failure ex_start_env_noread empty_world). reflexivity. Defined.

(** * Kernel resources along the life of a tracer *)

Section Resources.
Context {Event : Type}.
Implicit Types (t : Tracer Event) (e : AttachEnv) (m : gmap N attachment).

Lemma held_items_Permutation (its its' : list (uint64 * attachment)) :
  its ≡ₚ its' → held_items its ≡ₚ held_items its'.
Proof.
  induction 1 as [|[ns a] its its' _ IH|[ns a] [ns' a'] its|its1 its2 its3 _ IH1 _ IH2]; simpl.
  - done.
  - by rewrite IH.
  - rewrite !app_assoc. apply Permutation_app_tail, Permutation_app_comm.
  - by rewrite IH1.
Qed.

Lemma held_items_app (its1 its2 : list (uint64 * attachment)) :
  held_items (its1 ++ its2) = held_items its1 ++ held_items its2.
Proof.
  induction its1 as [|[ns a] its1 IH]; simpl; [done|]. by rewrite IH, app_assoc.
Qed.

Lemma held_in_lookup m (ns : uint64) (a : attachment) :
  m !! ns = Some a → held_in m ≡ₚ held a ++ held_in (delete ns m).
Proof.
  intros Ha. unfold held_in.
  by rewrite <- (held_items_Permutation _ _ (map_to_list_delete m ns a Ha)).
Qed.

Lemma held_in_insert_new m (ns : uint64) (a : attachment) :
  m !! ns = None → held_in (<[ns := a]> m) ≡ₚ held a ++ held_in m.
Proof.
  intros Ha. unfold held_in.
  by rewrite (held_items_Permutation _ _ (map_to_list_insert m ns a Ha)).
Qed.

Lemma held_in_insert_users m (ns : uint64) (a : attachment) (u : gset N) :
  m !! ns = Some a → held_in (<[ns := set_users u a]> m) ≡ₚ held_in m.
Proof.
  intros Ha. rewrite <- insert_delete_eq.
  rewrite held_in_insert_new by apply lookup_delete_eq.
  by rewrite (held_in_lookup m ns a Ha).
Qed.

Lemma held_in_range t its : range_of t its → held_items its ≡ₚ held_in (attachments t).
Proof. apply held_items_Permutation. Qed.

Lemma sound_set_users (a : attachment) (u : gset N) : sound a → sound (set_users u a).
Proof. done. Qed.

Lemma omap_acquires_acquired (c : option Collection) (rd : option Reader) pid fd :
  omap acquires (acquired c rd pid fd)
  = held {| collection := c; perfRd := rd; sockFd := fd; users := ∅ |}.
Proof. unfold acquired, held. cbn. by destruct c, rd, (decide (fd = (-1)%Z)). Qed.

Lemma omap_releases_acquired (c : option Collection) (rd : option Reader) pid fd :
  omap releases (acquired c rd pid fd) = [].
Proof. unfold acquired. by destruct c, rd, (decide (fd = (-1)%Z)). Qed.

Lemma omap_acquires_released (c : option Collection) (rd : option Reader) fd :
  omap acquires (released rd fd c) = [].
Proof. unfold released. by destruct c, rd, (decide (fd = (-1)%Z)). Qed.

Ltac rotate_collection :=
  first [ apply (Permutation_cons_append [_; _])
        | apply (Permutation_cons_append [_])
        | apply (Permutation_cons_append []) ].

Lemma omap_releases_released (c : option Collection) (rd : option Reader) fd :
  omap releases (released rd fd c)
  ≡ₚ held {| collection := c; perfRd := rd; sockFd := fd; users := ∅ |}.
Proof.
  unfold released, held. cbn.
  destruct c as [c|], rd, (decide (fd = (-1)%Z)); cbn; try done;
    symmetry; rotate_collection.
Qed.

Lemma omap_releases_release_events (a : attachment) :
  sound a → omap releases (release_events a) ≡ₚ held a.
Proof.
  intros [[[rd Hrd] [c Hc]] Hfd]. unfold release_events, held.
  rewrite Hrd, Hc, decide_False by done. cbn.
  symmetry. rotate_collection.
Qed.

Lemma omap_acquires_release_events (a : attachment) :
  omap acquires (release_events a) = [].
Proof. unfold release_events. by destruct (perfRd a), (collection a). Qed.

Lemma attachment_event_acquired (c : option Collection) (rd : option Reader) pid fd :
  Forall (λ ev, attachment_event ev = true) (acquired c rd pid fd).
Proof.
  unfold acquired. destruct c, rd, (decide (fd = (-1)%Z)); cbn; by repeat constructor.
Qed.

Lemma attachment_event_released (c : option Collection) (rd : option Reader) fd :
  Forall (λ ev, attachment_event ev = true) (released rd fd c).
Proof.
  unfold released. destruct c, rd, (decide (fd = (-1)%Z)); cbn; by repeat constructor.
Qed.

Lemma attachment_event_release_events (a : attachment) :
  Forall (λ ev, attachment_event ev = true) (release_events a).
Proof. unfold release_events. destruct (perfRd a), (collection a); by repeat constructor. Qed.

(** One [Attach] against a kernel that keeps its contract. *)
Lemma Attach_step e pid cb t w :
  well_behaved e → registry_sound (attachments t) → is_Some (w_specs w !! spec t) →
  ∃ err t1 w1 evs,
    Attach e pid cb t w = Ret (err, t1) w1
    ∧ registry_sound (attachments t1)
    ∧ (spec t1 = spec t ∧ socketEnricher t1 = socketEnricher t)
    ∧ (w_specs w1 !! spec t = w_specs w !! spec t ∧ w_chans w1 = w_chans w)
    ∧ (w_trace w1 = w_trace w ++ evs ∧ Forall (λ ev, attachment_event ev = true) evs)
    ∧ omap acquires evs ++ held_in (attachments t)
        ≡ₚ omap releases evs ++ held_in (attachments t1).
Proof.
  intros (Hcoll & Hrd & Hfd) Hsound [cs Hcs].
  destruct (r_GetNetNs e pid) as [netns [nerr|]] eqn:Hns.
  { unfold Attach. rewrite Hns. munfold. eexists _, t, w, [].
    split; [done|]. by rewrite app_nil_r. }
  destruct (attachments t !! netns) as [a|] eqn:Ha.
  { rewrite (Attach_existing e pid cb t w netns a) by done.
    eexists _, _, w, []. split; [done|]. cbn. rewrite app_nil_r.
    split; [|split; [done|split; [done|split; [done|]]]].
    - apply map_Forall_insert_2; [|done].
      apply sound_set_users. by apply (Hsound netns).
    - by rewrite held_in_insert_users. }
  rewrite (Attach_new e pid cb t w netns) by done.
  pose proof (newAttachment_spec e pid netns (socketEnricher t) (spec t)
                (bpfProgName t) (bpfPerfMapName t) (bpfSocketAttach t) w cs Hcs) as Hnew.
  cbv zeta in Hnew.
  destruct (newAttachment _ _ _ _ _ _ _ _ w) as [[oa [cerr|]] w2|msg].
  - destruct Hnew as (Hspecs & Hchans & -> & c & rd & fd & Htrace).
    eexists _, t, w2, _. split; [done|]. split; [done|]. split; [done|].
    split; [split; [rewrite Hspecs, Hcs; by apply fresh_spec_lookup|done]|].
    split.
    { split; [exact Htrace|]. apply Forall_app.
      split; [apply attachment_event_acquired|apply attachment_event_released]. }
    rewrite !omap_app, omap_acquires_acquired, omap_releases_acquired,
      omap_acquires_released, omap_releases_released.
    cbn. by rewrite app_nil_r.
  - destruct Hnew as (Hspecs & Hchans & c & rd & fd & prog & -> & Hok & Htrace).
    destruct Hok as (_ & _ & Hreader & _ & Hsock & _).
    destruct (Hrd _ _ _ Hreader) as [rd' ->]. apply Hfd in Hsock.
    eexists _, _, _, _. split; [done|]. cbn.
    split; [|split; [done|split;
      [split; [rewrite Hspecs, Hcs; by apply fresh_spec_lookup|done]|]]].
    { apply map_Forall_insert_2; [|done]. split; [split; by eexists|done]. }
    split.
    { split; [rewrite Htrace; by rewrite <- !app_assoc|].
      repeat first [ apply attachment_event_acquired
                   | apply Forall_app; split
                   | apply Forall_nil_2
                   | apply Forall_cons; split; [reflexivity|] ]. }
    rewrite !omap_app, omap_acquires_acquired, omap_releases_acquired. cbn.
    rewrite held_in_insert_new by done. unfold held. cbn.
    by rewrite decide_False by done.
  - exfalso. destruct Hnew as [_ Hnil]. by destruct (Hcoll _ _ _ Hnil).
Qed.

(** One [Detach] on a sound registry. *)
Lemma Detach_step its pid t w :
  registry_sound (attachments t) → range_of t its →
  ∃ err t1 w1 evs,
    Detach its pid t w = Ret (err, t1) w1
    ∧ registry_sound (attachments t1)
    ∧ (spec t1 = spec t ∧ socketEnricher t1 = socketEnricher t)
    ∧ (w_specs w1 = w_specs w ∧ w_chans w1 = w_chans w)
    ∧ (w_trace w1 = w_trace w ++ evs ∧ Forall (λ ev, attachment_event ev = true) evs)
    ∧ omap acquires evs = []
    ∧ held_in (attachments t) ≡ₚ omap releases evs ++ held_in (attachments t1).
Proof.
  intros Hsound Hrange.
  destruct (first_listing its pid) as [Hall|(pre & netns & a & post & -> & Hpre & Hin)].
  - rewrite (Detach_not_listed t its pid w Hrange).
    + eexists _, t, w, []. split; [done|]. by rewrite app_nil_r.
    + intros netns a Ha. apply elem_of_map_to_list in Ha.
      unfold range_of in Hrange. rewrite <- Hrange in Ha.
      by apply (proj1 (Forall_forall _ _) Hall (netns, a)).
  - rewrite Detach_skip by done.
    assert (attachments t !! netns = Some a) as Ha.
    { eapply range_of_lookup; [done|]. apply elem_of_app. right. by left. }
    pose proof (Hsound netns a Ha) as Hsa.
    destruct (decide (users a = {[ pid ]})) as [Hlast|Hmore].
    + rewrite Detach_first_last by (done || apply Hsa).
      eexists _, _, _, (release_events a). split; [done|]. cbn.
      split; [by apply map_Forall_delete|]. split; [done|]. split; [done|].
      split; [split; [done|apply attachment_event_release_events]|].
      split; [apply omap_acquires_release_events|].
      rewrite omap_releases_release_events by done.
      by apply held_in_lookup.
    + rewrite Detach_first_more by done.
      eexists _, _, w, []. split; [done|]. cbn. rewrite app_nil_r.
      split; [|split; [done|split; [done|split; [done|split; [done|]]]]].
      * apply map_Forall_insert_2; [|done]. by apply sound_set_users.
      * by rewrite held_in_insert_users.
Qed.

(** The calls of a history, from a sound registry. *)
Lemma steps_balance t0 w0 h t w :
  registry_sound (attachments t0) → is_Some (w_specs w0 !! spec t0) →
  well_behaved_history h →
  steps t0 w0 h t w →
  registry_sound (attachments t)
  ∧ socketEnricher t = socketEnricher t0
  ∧ w_chans w = w_chans w0
  ∧ ∃ evs, w_trace w = w_trace w0 ++ evs
           ∧ Forall (λ ev, attachment_event ev = true) evs
           ∧ omap acquires evs ++ held_in (attachments t0)
               ≡ₚ omap releases evs ++ held_in (attachments t).
Proof.
  intros Hsound Hspec Hwb Hsteps. revert Hsound Hspec Hwb.
  induction Hsteps as [t w|t w e pid cb err t1 w1 h t' w' Hrun _ IH
                       |t w its pid err t1 w1 h t' w' Hrange Hrun _ IH];
    intros Hsound Hspec Hwb.
  - split; [done|]. split; [done|]. split; [done|]. exists []. by rewrite app_nil_r.
  - apply Forall_cons in Hwb as [Hwe Hwb]. cbn in Hwe.
    destruct (Attach_step e pid cb t w Hwe Hsound Hspec)
      as (err' & t1' & w1' & evs & Hrun' & Hsound1 & [Hspec1 Hse1] & [Hlook Hchans1]
          & [Htrace Hatt] & Hbal).
    rewrite Hrun in Hrun'. injection Hrun' as -> -> ->.
    destruct IH as (Hsound' & Hse' & Hchans' & evs' & Htrace' & Hatt' & Hbal'); [done| |done|].
    { rewrite Hspec1, Hlook. done. }
    split; [done|]. split; [congruence|]. split; [congruence|]. exists (evs ++ evs').
    split; [by rewrite Htrace', Htrace, <- app_assoc|].
    split; [by apply Forall_app|].
    rewrite !omap_app.
    rewrite (Permutation_app_comm (omap acquires evs)), <- app_assoc, Hbal.
    rewrite (app_assoc (omap acquires evs')), (Permutation_app_comm (omap acquires evs')),
      <- app_assoc, Hbal'.
    by rewrite app_assoc.
  - apply Forall_cons in Hwb as [_ Hwb].
    destruct (Detach_step its pid t w Hsound Hrange)
      as (err' & t1' & w1' & evs & Hrun' & Hsound1 & [Hspec1 Hse1] & [Hspecs Hchans1]
          & [Htrace Hatt] & Hacq & Hbal).
    rewrite Hrun in Hrun'. injection Hrun' as -> -> ->.
    destruct IH as (Hsound' & Hse' & Hchans' & evs' & Htrace' & Hatt' & Hbal'); [done| |done|].
    { by rewrite Hspec1, Hspecs. }
    split; [done|]. split; [congruence|]. split; [congruence|]. exists (evs ++ evs').
    split; [by rewrite Htrace', Htrace, <- app_assoc|].
    split; [by apply Forall_app|].
    rewrite !omap_app, Hacq. cbn [app].
    rewrite Hbal, (app_assoc (omap acquires evs')),
      (Permutation_app_comm (omap acquires evs')), <- app_assoc, Hbal'.
    by rewrite app_assoc.
Qed.

Lemma omap_releases_Close (its : list (uint64 * attachment)) :
  Forall (λ it, sound it.2) its →
  omap releases (concat ((λ it, release_events it.2) <$> its)) ≡ₚ held_items its
  ∧ omap acquires (concat ((λ it, release_events it.2) <$> its)) = [].
Proof.
  induction 1 as [|[ns a] its Ha _ [IH1 IH2]]; [done|]. cbn.
  rewrite !omap_app, IH1, IH2, omap_acquires_release_events.
  by rewrite omap_releases_release_events.
Qed.

(** X12: against a kernel and a loader that keep their contract, [Attach]
    returns, whatever else they answer; it leaves every registered
    attachment with its collection, reader and raw socket, leaves the
    template in place, and accounts for every resource: what the call
    acquired, with what the registry held, is what the call released, with
    what the registry holds afterwards. *)
Theorem X12_Attach_accounts e pid cb t w :
  well_behaved e → registry_sound (attachments t) → is_Some (w_specs w !! spec t) →
  ∃ err t1 w1,
    Attach e pid cb t w = Ret (err, t1) w1
    ∧ registry_sound (attachments t1)
    ∧ w_specs w1 !! spec t1 = w_specs w !! spec t
    ∧ omap acquires (new_events w w1) ++ held_in (attachments t)
        ≡ₚ omap releases (new_events w w1) ++ held_in (attachments t1).
Proof.
  intros Hwe Hsound Hspec.
  destruct (Attach_step e pid cb t w Hwe Hsound Hspec)
    as (err & t1 & w1 & evs & Hrun & Hsound1 & [Hspec1 _] & [Hlook _] & [Htrace _] & Hbal).
  exists err, t1, w1. rewrite (new_events_app w w1 evs Htrace), Hspec1. done.
Qed.

(** X13: on a registry whose attachments have their collection, reader and
    raw socket, [Detach] returns for every pid and every order of
    enumeration; it acquires nothing, and what the registry held is what the
    call released with what the registry holds afterwards. *)
Theorem X13_Detach_accounts its pid t w :
  registry_sound (attachments t) → range_of t its →
  ∃ err t1 w1,
    Detach its pid t w = Ret (err, t1) w1
    ∧ registry_sound (attachments t1)
    ∧ w_specs w1 = w_specs w
    ∧ omap acquires (new_events w w1) = []
    ∧ held_in (attachments t) ≡ₚ omap releases (new_events w w1) ++ held_in (attachments t1).
Proof.
  intros Hsound Hrange.
  destruct (Detach_step its pid t w Hsound Hrange)
    as (err & t1 & w1 & evs & Hrun & Hsound1 & _ & [Hspecs _] & [Htrace _] & Hacq & Hbal).
  exists err, t1, w1. rewrite (new_events_app w w1 evs Htrace). done.
Qed.

(** X14: no resource outlives the tracer.  After any history of [Attach] and
    [Detach] calls on a tracer that started without attachments, against
    kernels that keep their contract, the loop of [Close] returns with an
    empty registry, and the collections, readers and raw sockets released
    since the start are those acquired since the start, each as many times. *)
Theorem X14_lifecycle_no_leak t0 w0 h t w its :
  attachments t0 = ∅ →
  is_Some (w_specs w0 !! spec t0) →
  well_behaved_history h →
  steps t0 w0 h t w →
  range_of t its →
  ∃ w1,
    Close_range its t w = Ret (set_attachments ∅ t) w1
    ∧ omap releases (new_events w0 w1) ≡ₚ omap acquires (new_events w0 w1).
Proof.
  intros Hempty Hspec Hwb Hsteps Hrange.
  destruct (steps_balance t0 w0 h t w) as (Hsound & _ & _ & evs & Htrace & _ & Hbal);
    try done.
  { rewrite Hempty. apply map_Forall_empty. }
  assert (Forall (λ it, sound it.2) its) as Hall.
  { apply Forall_forall. intros [ns a] Hin. cbn.
    apply (Hsound ns). by apply (range_of_lookup t its). }
  rewrite Close_range_loaded by (eapply Forall_impl; [exact Hall|by intros ? [? ?]]).
  rewrite foldl_delete_all by done.
  eexists. split; [done|].
  destruct (omap_releases_Close its Hall) as [Hrel Hacq].
  erewrite new_events_app; cycle 1.
  { cbn. rewrite Htrace, <- app_assoc. done. }
  rewrite !omap_app, Hrel, Hacq, app_nil_r.
  rewrite (held_in_range t its Hrange), <- Hbal, Hempty.
  unfold held_in. rewrite map_to_list_empty. cbn. by rewrite app_nil_r.
Qed.

End Resources.

(** * The whole life of a tracer *)

Lemma service_events_project (evs : list kevent) :
  Forall (λ ev, service_event ev = true) evs →
  omap acquires evs = [] ∧ omap releases evs = [].
Proof.
  induction 1 as [|ev evs Hev _ [IH1 IH2]]; [done|].
  destruct ev; try discriminate Hev; cbn; by rewrite ?IH1, ?IH2.
Qed.

Lemma attachment_events_project (evs : list kevent) :
  Forall (λ ev, attachment_event ev = true) evs →
  omap link_attached evs = [] ∧ omap link_closed evs = []
  ∧ omap file_opened evs = [] ∧ omap file_closed evs = []
  ∧ filter is_ChanClose evs = [] ∧ filter is_GoCleanup evs = [].
Proof.
  induction 1 as [|ev evs Hev _ (IH1 & IH2 & IH3 & IH4 & IH5 & IH6)]; [done|].
  destruct ev; try discriminate Hev; cbn; by rewrite ?IH1, ?IH2, ?IH3, ?IH4, ?IH5, ?IH6.
Qed.

Lemma attachment_event_Close (its : list (uint64 * attachment)) :
  Forall (λ ev, attachment_event ev = true) (concat ((λ it, release_events it.2) <$> its)).
Proof.
  induction its as [|[ns a] its IH]; [constructor|]. cbn.
  apply Forall_app. split; [apply attachment_event_release_events|exact IH].
Qed.

Section Life.
Context {Event : Type}.
Implicit Types (t : Tracer Event) (e : NewTracerEnv).

Lemma NewTracer_range_trace e (ms : list (string * MapSpec)) w :
  ∃ se w' evs,
    NewTracer_range e ms w = Ret se w'
    ∧ w_specs w' = w_specs w ∧ w_trace w' = w_trace w ++ evs
    ∧ service_ready se w' evs.
Proof.
  induction ms as [|[k m] ms IH]; cbn [NewTracer_range].
  - exists None, w, []. munfold. rewrite app_nil_r. by repeat split.
  - destruct (decide (ms_Name m = SocketsMapName)) as [_|_]; [|exact IH].
    destruct (NewSocketEnricher_trace (r_start e) w)
      as (r & err & w1 & evs & Hrun & Hsrv & Hspecs & Htrace & Hlinks & Hfiles & Hchan & Hr).
    munfold. rewrite Hrun. cbn.
    destruct r as [se|].
    + destruct Hr as (-> & Honce & Hgo & c & Hdone & Hc). cbn.
      exists (Some se), w1, evs. split; [done|]. split; [done|]. split; [done|].
      split; [done|]. split; [done|]. split; [done|]. split; [done|].
      split; [done|]. split; [done|]. by exists c.
    + destruct Hr as ([err' ->] & Hgo). cbn.
      eexists None, _, (evs ++ [EvLog _]). split; [done|]. cbn.
      split; [done|]. split; [by rewrite Htrace, <- app_assoc|].
      split; [apply Forall_app; split; [done|by repeat constructor]|].
      rewrite !omap_app, !filter_app, Hfiles, Hchan, Hgo. cbn. rewrite !app_nil_r.
      by repeat split.
Qed.

Lemma NewTracer_trace e (l : specptr) pn pm opt
    (bE : types_Event → option Event) (pE : list N → uint64 → option Event * option error)
    cs w :
  w_specs w !! l = Some cs →
  ∃ t w' evs,
    NewTracer e l pn pm opt bE pE w = Ret (Some t, None) w'
    ∧ attachments t = ∅ ∧ spec t = l ∧ is_Some (w_specs w' !! l)
    ∧ w_trace w' = w_trace w ++ evs
    ∧ service_ready (socketEnricher t) w' evs.
Proof.
  intros Hcs. unfold NewTracer. munfold. unfold spec_load, spec_store.
  rewrite Hcs. cbn -[NewTracer_range].
  match goal with |- context [NewTracer_range e ?ms ?w1] =>
    destruct (NewTracer_range_trace e ms w1) as (se & w' & evs & -> & Hspecs & Htrace & Hready)
  end.
  eexists _, w', evs. split; [done|]. cbn. split; [done|]. split; [done|].
  split; [rewrite Hspecs; cbn; rewrite lookup_insert_eq; by eexists|].
  by split.
Qed.

(** X15: the whole life of a tracer leaves nothing behind.  A tracer made by
    [NewTracer], used through any history of [Attach] and [Detach] calls
    against kernels that keep their contract, and then closed: [Close]
    returns with an empty registry; the collections, readers and raw sockets
    released since before [NewTracer] are those acquired, the links closed
    are the links attached, every file opened was closed, and the sweep task
    of the enrichment service, when one was started, got its stop signal. *)
Theorem X15_tracer_life e (l : specptr) pn pm opt
    (bE : types_Event → option Event) (pE : list N → uint64 → option Event * option error)
    cs w0 t0 wA h t w its :
  w_specs w0 !! l = Some cs →
  NewTracer e l pn pm opt bE pE w0 = Ret (Some t0, None) wA →
  well_behaved_history h →
  steps t0 wA h t w →
  range_of t its →
  ∃ t' w',
    Close its t w = Ret t' w'
    ∧ attachments t' = ∅
    ∧ omap releases (new_events w0 w') ≡ₚ omap acquires (new_events w0 w')
    ∧ omap link_closed (new_events w0 w') ≡ₚ omap link_attached (new_events w0 w')
    ∧ omap file_closed (new_events w0 w') = omap file_opened (new_events w0 w')
    ∧ length (filter is_ChanClose (new_events w0 w'))
        = length (filter is_GoCleanup (new_events w0 w')).
Proof.
  intros Hcs Hnew Hwb Hsteps Hrange.
  destruct (NewTracer_trace e l pn pm opt bE pE cs w0 Hcs)
    as (t0' & wA' & evsN & Hnew' & Hempty & Hspec & Hl & HtraceN & Hready).
  rewrite Hnew in Hnew'. injection Hnew' as <- <-.
  destruct (steps_balance t0 wA h t w)
    as (Hsound & Hse & Hchans & evsH & HtraceH & HattH & Hbal); try done.
  { rewrite Hempty. apply map_Forall_empty. }
  { by rewrite Hspec. }
  assert (Forall (λ it, sound it.2) its) as Hall.
  { apply Forall_forall. intros [ns a] Hin. cbn.
    apply (Hsound ns). by apply (range_of_lookup t its). }
  destruct (omap_releases_Close its Hall) as [HrelC HacqC].
  pose proof (attachment_event_Close its) as HattC.
  set (evsC := concat ((λ it, release_events it.2) <$> its)) in *.
  destruct Hready as (Hsrv & Hlinks & Hfiles & Hchan & Hservice).
  destruct (service_events_project evsN Hsrv) as [HacqN HrelN].
  destruct (attachment_events_project evsH HattH) as (HH1 & HH2 & HH3 & HH4 & HH5 & HH6).
  destruct (attachment_events_project evsC HattC) as (HC1 & HC2 & HC3 & HC4 & HC5 & HC6).
  assert (omap releases evsH ++ omap releases evsC ≡ₚ omap acquires evsH) as Hres.
  { rewrite HrelC, (held_in_range t its Hrange), <- Hbal, Hempty.
    unfold held_in. rewrite map_to_list_empty. cbn. by rewrite app_nil_r. }
  unfold Close. munfold.
  rewrite Close_range_loaded by (eapply Forall_impl; [exact Hall|by intros ? [? ?]]).
  rewrite foldl_delete_all by done. fold evsC. cbn. rewrite Hse.
  destruct (socketEnricher t0) as [se|].
  - destruct Hservice as (Honce & Hgo & c & Hdone & Hc).
    rewrite (Close_first se c) by (done || (cbn; by rewrite Hchans)).
    eexists _, _. split; [done|]. split; [done|].
    erewrite (new_events_app w0 _
                (evsN ++ evsH ++ evsC ++ [EvChanClose c] ++ (EvLinkClose <$> SE.links se)
                   ++ [EvObjsClose (SE.objs se)])); cycle 1.
    { cbn. rewrite HtraceH, HtraceN, <- !app_assoc. done. }
    destruct (service_events_project _ (service_event_close (SE.links se))) as [HLa HLr].
    project_events.
    rewrite HacqN, HrelN, HacqC, HH1, HH2, HH3, HH4, HH5, HH6, HC1, HC2, HC3, HC4, HC5, HC6,
      HLa, HLr, Hfiles, Hchan.
    cbn. rewrite !app_nil_r.
    split; [exact Hres|]. split; [|split; [done|by rewrite Hgo]].
    rewrite Hlinks. cbn. apply Permutation_app_comm.
  - eexists _, _. split; [done|]. split; [done|].
    erewrite (new_events_app w0 _ (evsN ++ evsH ++ evsC)); cycle 1.
    { cbn. rewrite HtraceH, HtraceN, <- !app_assoc. done. }
    project_events.
    rewrite HacqN, HrelN, HacqC, HH1, HH2, HH3, HH4, HH5, HH6, HC1, HC2, HC3, HC4, HC5, HC6,
      Hfiles, Hchan, Hservice.
    cbn. rewrite !app_nil_r.
    split; [exact Hres|]. split; [|done].
    rewrite Hlinks. done.
Qed.

Lemma Close_closable (se : SE.SocketEnricher) w :
  closable se w →
  ∃ se' w',
    SE.Close se w = Ret se' w'
    ∧ SE.closeOnce se' = true ∧ SE.links se' = [] ∧ w_specs w' = w_specs w.
Proof.
  intros Hok. destruct (SE.closeOnce se) eqn:Honce.
  - unfold SE.Close, SE.Once_Do. rewrite Honce. munfold. cbn.
    rewrite CloseLinks_spec. cbn. by eexists _, _.
  - destruct Hok as [Hspent|[Hnone|(c & Hdone & Hc)]]; [congruence| |].
    + rewrite Close_unstarted by done. rewrite Honce. by eexists _, _.
    + rewrite (Close_first se c) by done. by eexists _, _.
Qed.

(** X16: [Close] may be called again.  On a tracer whose attachments have
    their handles and whose enrichment service can be closed, [Close] returns
    with an empty registry; a second [Close] then returns the same tracer,
    releases no attachment, closes no link and no channel, and only closes
    the objects of the enrichment service once more, when there is one. *)
Theorem X16_Close_twice t its w :
  range_of t its →
  registry_sound (attachments t) →
  (∀ se, socketEnricher t = Some se → closable se w) →
  ∃ t' w',
    Close its t w = Ret t' w'
    ∧ attachments t' = ∅
    ∧ Close [] t' w'
        = Ret t' (set_trace
                    (λ tr, tr ++ from_option (λ se, [EvObjsClose (SE.objs se)]) []
                                   (socketEnricher t')) w').
Proof.
  intros Hrange Hsound Hse.
  assert (Forall (λ it, loaded it.2) its) as Hall.
  { apply Forall_forall. intros [ns a] Hin. cbn.
    apply (Hsound ns). by apply (range_of_lookup t its). }
  unfold Close at 1. munfold. rewrite Close_range_loaded by done.
  rewrite foldl_delete_all by done. cbn.
  destruct (socketEnricher t) as [se|] eqn:Het.
  - destruct (Close_closable se
                (set_trace (λ tr, tr ++ concat ((λ it, release_events it.2) <$> its)) w))
      as (se' & w' & -> & Honce & Hlinks & _).
    { destruct (Hse se eq_refl) as [?|[?|(c & ? & ?)]];
        [by left|by right; left|right; right; by exists c]. }
    eexists _, w'. split; [done|]. split; [done|].
    unfold Close. munfold. cbn. by rewrite Close_again by done.
  - eexists _, _. split; [done|]. split; [done|].
    unfold Close. munfold. cbn. rewrite Het. cbn.
    f_equal. apply world_eq; cbn; by rewrite ?app_nil_r.
Qed.

End Life.

Lemma ex_attach_env_well_behaved : well_behaved (ex_attach_env 0).
Proof.
  split; [|split].
  - intros cs opts c Hc. cbn in Hc. injection Hc as <-. by eexists.
  - intros m size rd Hrd. cbn in Hrd. injection Hrd as <-. by eexists.
  - intros pid fd Hfd. cbn in Hfd. by injection Hfd as <-.
Qed.

Lemma ex_tracer2_sound : registry_sound (attachments ex_tracer2).
Proof.
  apply map_Forall_insert_2; [by split; [apply ex_att1_loaded|]|].
  apply map_Forall_insert_2; [by split; [apply ex_att2_loaded|]|].
  apply map_Forall_empty.
Qed.

Lemma X12_Attach_accounts_witness :
  ∃ err t1 w1,
    Attach (ex_attach_env 0) 10%N 1%N ex_tracer ex_world = Ret (err, t1) w1
    ∧ registry_sound (attachments t1)
    ∧ w_specs w1 !! spec t1 = w_specs ex_world !! spec ex_tracer
    ∧ omap acquires (new_events ex_world w1) ++ held_in (attachments ex_tracer)
        ≡ₚ omap releases (new_events ex_world w1) ++ held_in (attachments t1).
Proof.
  apply (X12_Attach_accounts (ex_attach_env 0) 10%N 1%N ex_tracer ex_world).
  - exact ex_attach_env_well_behaved.
  - apply map_Forall_empty.
  - eexists. reflexivity.
Defined.

Lemma X13_Detach_accounts_witness :
  ∃ err t1 w1,
    Detach ex_range 10%N ex_tracer2 ex_world = Ret (err, t1) w1
    ∧ registry_sound (attachments t1)
    ∧ w_specs w1 = w_specs ex_world
    ∧ omap acquires (new_events ex_world w1) = []
    ∧ held_in (attachments ex_tracer2)
        ≡ₚ omap releases (new_events ex_world w1) ++ held_in (attachments t1).
Proof.
  apply (X13_Detach_accounts ex_range 10%N ex_tracer2 ex_world).
  - exact ex_tracer2_sound.
  - exact ex_range_of.
Defined.

Lemma X14_lifecycle_no_leak_witness :
  ∃ t w its w1,
    steps ex_tracer ex_world ex_history t w
    ∧ range_of t its
    ∧ Close_range its t w = Ret (set_attachments ∅ t) w1
    ∧ omap releases (new_events ex_world w1) ≡ₚ omap acquires (new_events ex_world w1).
Proof.
  destruct ex_history_steps as (t & w & Hsteps & _).
  exists t, w, (map_to_list (attachments t)).
  destruct (X14_lifecycle_no_leak ex_tracer ex_world ex_history t w
              (map_to_list (attachments t))) as (w1 & Hclose & Hbal).
  - reflexivity.
  - eexists. reflexivity.
  - repeat (apply Forall_cons; split;
              [first [exact ex_attach_env_well_behaved | exact I]|]).
    apply Forall_nil_2.
  - exact Hsteps.
  - unfold range_of. reflexivity.
  - exists w1. split; [exact Hsteps|]. split; [unfold range_of; reflexivity|]. by split.
Defined.

(** * Examples for the registry, the construction and the shutdown *)

Lemma X4_Attach_listed_pid_witness :
  Attach (ex_attach_env 0) 10%N 1%N ex_tracer2 ex_world = Ret (None, ex_tracer2) ex_world.
Proof.
  apply (X4_Attach_listed_pid (ex_attach_env 0) 10%N 1%N ex_tracer2 ex_world
           4026531992%N ex_att1).
  - reflexivity.
  - reflexivity.
  - by_compute.
Defined.

Lemma ex_tracer2_without_11 :
  ∀ ns b, attachments ex_tracer2 !! ns = Some b → 11%N ∉ users b.
Proof.
  change (map_Forall (λ _ b, 11%N ∉ users b) (attachments ex_tracer2)).
  apply map_Forall_insert_2; [by_compute|].
  apply map_Forall_insert_2; [by_compute|].
  apply map_Forall_empty.
Qed.

Lemma X5_Attach_Detach_shared_witness :
  ∃ t1,
    Attach (ex_attach_env 0) 11%N 1%N ex_tracer2 ex_world = Ret (None, t1) ex_world
    ∧ (range_of t1 ex_range_joined →
       Detach ex_range_joined 11%N t1 ex_world = Ret (None, ex_tracer2) ex_world).
Proof.
  apply (X5_Attach_Detach_shared (ex_attach_env 0) 11%N 1%N ex_tracer2 ex_world
           4026531992%N ex_att1 ex_range_joined).
  - reflexivity.
  - reflexivity.
  - by_compute.
  - exact ex_tracer2_without_11.
Defined.

Lemma X6_Attach_Detach_alone_witness :
  ∃ t1 w1 w2,
    Attach (ex_attach_env 0) 10%N 1%N ex_tracer ex_world = Ret (None, t1) w1
    ∧ attachments t1 !! 4026531992%N = Some ex_att1
    ∧ (range_of t1 [(4026531992%N, ex_att1)] →
       Detach [(4026531992%N, ex_att1)] 10%N t1 w1 = Ret (None, ex_tracer) w2
       ∧ new_events ex_world w2
           = acquired (Some ex_coll1) (Some 70%N) 10%N 9%Z
               ++ [EvSetsockopt 9%Z 50%Z 50%Z; EvGoListen 4026531992%N (Some 70%N) 1%N;
                   EvReaderClose 70%N; EvUnixClose 9%Z; EvCollectionClose ex_coll1]).
Proof.
  apply (X6_Attach_Detach_alone (ex_attach_env 0) 10%N 1%N ex_tracer ex_world
           4026531992%N ex_spec ex_coll1 70%N 9%Z 50%Z [(4026531992%N, ex_att1)]).
  - reflexivity.
  - reflexivity.
  - reflexivity.
  - intros ns b Hb. cbn in Hb. by rewrite lookup_empty in Hb.
  - repeat split; by vm_compute.
Defined.

Lemma ex_tracer2_loaded : ∀ ns a, attachments ex_tracer2 !! ns = Some a → loaded a.
Proof. intros ns a Ha. by apply (ex_tracer2_sound ns a Ha). Qed.

Lemma X7_Close_releases_all_witness :
  Close ex_range ex_tracer2 ex_new_world =
    match socketEnricher ex_tracer2 with
    | None =>
      Ret (set_attachments ∅ ex_tracer2)
          (set_trace (λ tr, tr ++ concat ((λ it, release_events it.2) <$> ex_range))
             ex_new_world)
    | Some se =>
      match SE.Close se (set_trace
                           (λ tr, tr ++ concat ((λ it, release_events it.2) <$> ex_range))
                           ex_new_world) with
      | Ret se' w' => Ret (set_socketEnricher (Some se') (set_attachments ∅ ex_tracer2)) w'
      | Panic msg => Panic msg
      end
    end
  ∧ length (concat ((λ it, release_events it.2) <$> ex_range))
      = 3 * size (attachments ex_tracer2).
Proof.
  apply (X7_Close_releases_all ex_tracer2 ex_range ex_new_world).
  - exact ex_range_of.
  - exact ex_tracer2_loaded.
Defined.

Lemma X8_newAttachment_low_bits_witness :
  newAttachment (ex_attach_env 0) 10%N 4026531992%N (Some ex_se) 1%N
    "ig_trace_dns" "events" 50%Z ex_world
  = newAttachment (ex_attach_env 0) 10%N 8321499288%N (Some ex_se) 1%N
      "ig_trace_dns" "events" 50%Z ex_world.
Proof.
  apply (X8_newAttachment_low_bits (ex_attach_env 0) 10%N 4026531992%N 8321499288%N).
  reflexivity.
Defined.

Lemma X9_newAttachment_success_witness :
  newAttachment (ex_attach_env 0) 10%N 4026531992%N (Some ex_se) 1%N
    "ig_trace_dns" "events" 50%Z ex_world
  = Ret (Some ex_att1, None)
        (set_trace (λ tr, tr ++ acquired (Some ex_coll1) (Some 70%N) 10%N 9%Z
                             ++ [EvSetsockopt 9%Z 50%Z 50%Z])
           (set_specs <[fresh (dom (w_specs ex_world)) :=
                          loaded_spec (ex_attach_env 0) 4026531992%N (Some ex_se) ex_spec]>
              ex_world))
  ↔ ∃ c rd fd prog,
      constructs (ex_attach_env 0) 10%N 4026531992%N (Some ex_se) ex_spec
        "ig_trace_dns" "events" 50%Z c rd fd prog
      ∧ ex_att1 = {| collection := Some c; perfRd := rd; sockFd := fd; users := {[ 10%N ]} |}
      ∧ set_trace (λ tr, tr ++ acquired (Some ex_coll1) (Some 70%N) 10%N 9%Z
                            ++ [EvSetsockopt 9%Z 50%Z 50%Z])
          (set_specs <[fresh (dom (w_specs ex_world)) :=
                         loaded_spec (ex_attach_env 0) 4026531992%N (Some ex_se) ex_spec]>
             ex_world)
        = set_trace (λ tr, tr ++ acquired (Some c) rd 10%N fd ++ [EvSetsockopt fd 50%Z prog])
            (set_specs <[fresh (dom (w_specs ex_world)) :=
                           loaded_spec (ex_attach_env 0) 4026531992%N (Some ex_se) ex_spec]>
               ex_world).
Proof.
  apply (X9_newAttachment_success (ex_attach_env 0) 10%N 4026531992%N (Some ex_se) 1%N
           "ig_trace_dns" "events" 50%Z ex_world ex_spec).
  reflexivity.
Defined.

Lemma ex_new_tracer :
  NewTracer (ex_newtracer_env ex_start_env) 1%N "ig_trace_dns" "events" 50%Z
    ex_baseEvent ex_processEvent ex_world = Ret (Some ex_tracer, None) ex_new_world.
Proof. by vm_compute. Qed.

Lemma ex_life_steps : ∃ t w, steps ex_tracer ex_new_world ex_life t w.
Proof.
  eexists _, _.
  eapply steps_Attach; [run_call|].
  eapply steps_Attach; [run_call|].
  apply steps_nil.
Qed.

Lemma X15_tracer_life_witness :
  ∃ t w t' w',
    steps ex_tracer ex_new_world ex_life t w
    ∧ Close (map_to_list (attachments t)) t w = Ret t' w'
    ∧ attachments t' = ∅
    ∧ omap releases (new_events ex_world w') ≡ₚ omap acquires (new_events ex_world w')
    ∧ omap link_closed (new_events ex_world w') ≡ₚ omap link_attached (new_events ex_world w')
    ∧ omap file_closed (new_events ex_world w') = omap file_opened (new_events ex_world w')
    ∧ length (filter is_ChanClose (new_events ex_world w'))
        = length (filter is_GoCleanup (new_events ex_world w')).
Proof.
  destruct ex_life_steps as (t & w & Hsteps).
  destruct (X15_tracer_life (ex_newtracer_env ex_start_env) 1%N "ig_trace_dns" "events" 50%Z
              ex_baseEvent ex_processEvent ex_spec ex_world ex_tracer ex_new_world
              ex_life t w (map_to_list (attachments t)))
    as (t' & w' & Hclose & Hrest).
  - reflexivity.
  - exact ex_new_tracer.
  - repeat (apply Forall_cons; split; [exact ex_attach_env_well_behaved|]).
    apply Forall_nil_2.
  - exact Hsteps.
  - unfold range_of. reflexivity.
  - exists t, w, t', w'. split; [exact Hsteps|]. split; [exact Hclose|]. exact Hrest.
Defined.

Lemma X16_Close_twice_witness :
  ∃ t' w',
    Close ex_range ex_tracer2 ex_new_world = Ret t' w'
    ∧ attachments t' = ∅
    ∧ Close [] t' w'
        = Ret t' (set_trace
                    (λ tr, tr ++ from_option (λ se, [EvObjsClose (SE.objs se)]) []
                                   (socketEnricher t')) w').
Proof.
  apply (X16_Close_twice ex_tracer2 ex_range ex_new_world).
  - exact ex_range_of.
  - exact ex_tracer2_sound.
  - intros se [= <-]. right. right. exists 0%N. split; reflexivity.
Defined.

(** [%q] on a program name: plain, and with a quote, a backslash, a line
    feed and the byte 1 in it. *)
Example fmt_q_escapes :
  fmt_q "ig_trace_dns"
    = String (Ascii.ascii_of_nat 34) ("ig_trace_dns" +:+ String (Ascii.ascii_of_nat 34) EmptyString)
  ∧ fmt_q (String (Ascii.ascii_of_nat 34)
             (String (Ascii.ascii_of_nat 92)
                (String (Ascii.ascii_of_nat 10) (String (Ascii.ascii_of_nat 1) "z"))))
    = String (Ascii.ascii_of_nat 34)
        ("\" +:+ String (Ascii.ascii_of_nat 34) ("\\\n\x01z" +:+
           String (Ascii.ascii_of_nat 34) EmptyString)).
Proof. split; reflexivity. Qed.
